(** * K-nearest-neighbours classifier of [week_4/SVC and KNN.ipynb]

    A shallow embedding of the notebook's [knn_predict] and the properties
    its specification states about it.

    {v
    def knn_predict(X_train, y_train, X_test, k=3):
        y_pred = []
        for test_point in X_test:
            distances = np.sqrt(((X_train - test_point) ** 2).sum(axis=1))
            nearest_neighbors = np.argsort(distances)[:k]
            nearest_labels = [y_train[i] for i in nearest_neighbors]
            majority_vote = Counter(nearest_labels).most_common(1)[0][0]
            y_pred.append(majority_vote)
        return np.array(y_pred)
    v}

    Modelling conventions.
    - The arrays are [int64] arrays, as [np.array] makes them from the
      notebook's own data, and the labels are integers.  Subtraction, squaring
      and summation are the wrapping 64-bit operations of numpy ([wrap64]).
    - [np.sqrt] converts the [int64] sums to [float64] and takes the
      correctly rounded square root; a negative sum gives [nan].  A [float64]
      value [v] that [np.sqrt] can return is a multiple of [2^-52] and is
      represented by the integer [v * 2^52], [nan] by [nan64], above
      every other value as in numpy's sorts ([to_f64], [sqrt_f64], [np_sqrt]).
      [euclid] is the real-valued distance of the specification and
      [np_sqrt_exact] tells when the two orders are the same.
    - [np.argsort] is called with its default [kind], which numpy documents
      as not stable.  The model therefore takes the sort as a parameter
      ([Argsort]): any function returning a permutation of the positions
      along which the keys are non-decreasing.  [stable_argsort] and
      [antistable_argsort] are two such functions; neither is numpy's.
    - A Python exception is a [Raise] result; the loop over the query points
      is a left-to-right monadic map, so the first exception aborts the call. *)

From Stdlib Require Import Reals.
From Stdlib Require Import ZArith List Bool Lia Permutation Sorted.
Import ListNotations.
Open Scope Z_scope.

(** * The program *)

(** ** Exceptions *)

Inductive exn : Type :=
| IndexError   (* sequence index out of range *)
| ValueError   (* operands could not be broadcast together *)
| TypeError.   (* an object of another kind than the operation expects *)

Inductive result (A : Type) : Type :=
| Ok (a : A)
| Raise (e : exn).
Arguments Ok {A} a.
Arguments Raise {A} e.

Definition bind {A B : Type} (c : result A) (k : A -> result B) : result B :=
  match c with
  | Ok a => k a
  | Raise e => Raise e
  end.

Notation "x <- c ;; k" := (bind c (fun x => k))
  (at level 61, c at next level, right associativity).

(** Left-to-right traversal; stops at the first exception. *)
Fixpoint mapM {A B : Type} (f : A -> result B) (l : list A) : result (list B) :=
  match l with
  | [] => Ok []
  | x :: l' => y <- f x ;; ys <- mapM f l' ;; Ok (y :: ys)
  end.

(** ** Arrays *)

(** [int64] arithmetic: the result of an operation is taken modulo [2^64]
    in the range [-2^63 .. 2^63 - 1]. *)
Definition wrap64 (z : Z) : Z := (z + 2 ^ 63) mod 2 ^ 64 - 2 ^ 63.

(** A two-dimensional [int64] array of shape [(length rows, ncols)].  The
    column count is part of the shape even when there is no row. *)
Record ndarray2 : Type := mk_array { ncols : nat; rows : list (list Z) }.

Definition wf_array (X : ndarray2) : bool :=
  forallb (fun r => Nat.eqb (length r) (ncols X)) (rows X).

Definition nrows (X : ndarray2) : nat := length (rows X).

(** [np.array(rows)] for rows of [d] entries. *)
Definition np_array (d : nat) (rs : list (list Z)) : ndarray2 := mk_array d rs.

Definition zip_sub (r t : list Z) : list Z :=
  map (fun p => wrap64 (fst p - snd p)) (combine r t).

(** [X_train - test_point] under numpy's broadcasting rule for shapes
    [(N, D)] and [(D',)]: the trailing dimensions must be equal or one of
    them must be 1. *)
Definition sub_broadcast (X : ndarray2) (t : list Z) : result (list (list Z)) :=
  if Nat.eqb (length t) (ncols X) then
    Ok (map (fun r => zip_sub r t) (rows X))
  else if Nat.eqb (length t) 1 then
    Ok (map (fun r => map (fun x => wrap64 (x - hd 0 t)) r) (rows X))
  else if Nat.eqb (ncols X) 1 then
    Ok (map (fun r => map (fun y => wrap64 (hd 0 r - y)) t) (rows X))
  else Raise ValueError.

(** [(... ** 2).sum(axis=1)] on one row: every square and every partial sum
    is an [int64]. *)
Definition sum_sq (r : list Z) : Z :=
  fold_left (fun acc d => wrap64 (acc + wrap64 (d ^ 2))) r 0.

(** ** Square roots *)

(** The [float64] nearest to an integer [0 <= s < 2^63], ties to even: [s]
    itself below [2^53], and above it [s] rounded to 53 significant bits. *)
Definition to_f64 (s : Z) : Z :=
  let e := Z.log2 s in
  if e <? 53 then s
  else
    let sh := e - 52 in
    let q := s / 2 ^ sh in
    let r := s mod 2 ^ sh in
    let half := 2 ^ (sh - 1) in
    (if (half <? r) || ((r =? half) && Z.odd q) then q + 1 else q) * 2 ^ sh.

(** The correctly rounded square root of the [float64] integer [f], times
    [2^52].  With [4^j <= f < 4^(j+1)] the root lies in [[2^j, 2^(j+1))],
    where the [float64] values are the multiples [m * 2^(j-52)]; [m] is the
    integer nearest to [sqrt f * 2^(52-j)], which is never half-way. *)
Definition sqrt_f64 (f : Z) : Z :=
  if f =? 0 then 0
  else
    let j := Z.log2 f / 2 in
    let F := f * 2 ^ (104 - 2 * j) in
    let q := Z.sqrt F in
    (if q <? F - q * q then q + 1 else q) * 2 ^ j.

(** [nan], placed above every value [sqrt_f64] returns. *)
Definition nan64 : Z := 2 ^ 84.

(** [np.sqrt] on an [int64]. *)
Definition np_sqrt (s : Z) : Z :=
  if s <? 0 then nan64 else sqrt_f64 (to_f64 s).

(** [distances], one [float64] per training point. *)
Definition distances (X : ndarray2) (t : list Z) : result (list Z) :=
  diffs <- sub_broadcast X t ;; Ok (map (fun r => np_sqrt (sum_sq r)) diffs).

(** ** Sorting *)

Definition key_at (ks : list Z) (i : nat) : Z := nth i ks 0.

(** What [np.argsort] guarantees whatever its [kind]: the positions
    [0 .. n-1] in an order along which the keys do not decrease, [nan] last.
    The order of positions of equal keys is left to the implementation. *)
Record Argsort : Type := mk_argsort {
  argsort : list Z -> list nat;
  argsort_perm : forall ks, Permutation (argsort ks) (seq 0 (length ks));
  argsort_sorted : forall ks, Sorted Z.le (map (key_at ks) (argsort ks))
}.

Section Insertion.
(** [before a b]: a key [a] coming from the left is placed before [b]. *)
Variable before : Z -> Z -> bool.

Fixpoint insert (ks : list Z) (i : nat) (l : list nat) : list nat :=
  match l with
  | [] => [i]
  | j :: l' =>
      if before (key_at ks i) (key_at ks j) then i :: j :: l'
      else j :: insert ks i l'
  end.

Definition isort (ks : list Z) (l : list nat) : list nat :=
  fold_right (insert ks) [] l.

Definition insertion_argsort (ks : list Z) : list nat :=
  isort ks (seq 0 (length ks)).
End Insertion.

(** ** Slicing and indexing *)

(** [l[:k]]: a negative [k] counts from the end. *)
Definition slice_to {A : Type} (l : list A) (k : Z) : list A :=
  if 0 <=? k then firstn (Z.to_nat k) l
  else firstn (Z.to_nat (Z.of_nat (length l) + k)) l.

(** [l[i]] for a non-negative position. *)
Definition getitem {A : Type} (l : list A) (i : nat) : result A :=
  match nth_error l i with
  | Some x => Ok x
  | None => Raise IndexError
  end.

(** ** Counter *)

(** A [Counter] is a dict, and a dict keeps its items in insertion order: a
    label enters at its first occurrence and stays there when its count grows. *)
Fixpoint counter_incr (c : list (Z * nat)) (x : Z) : list (Z * nat) :=
  match c with
  | [] => [(x, 1%nat)]
  | (y, n) :: c' =>
      if Z.eqb x y then (y, S n) :: c' else (y, n) :: counter_incr c' x
  end.

Definition Counter (l : list Z) : list (Z * nat) := fold_left counter_incr l [].

(** [most_common(1)] is [heapq.nlargest(1, items, key=count)], that is
    [max(items, key=count)]: the first item among those of greatest count. *)
Fixpoint max_first (best : Z * nat) (items : list (Z * nat)) : Z * nat :=
  match items with
  | [] => best
  | e :: items' =>
      max_first (if Nat.ltb (snd best) (snd e) then e else best) items'
  end.

(** [most_common(1)]: a list of one item, or of none for an empty counter. *)
Definition most_common1 (c : list (Z * nat)) : list (Z * nat) :=
  match c with
  | [] => []
  | e :: c' => [max_first e c']
  end.

(** [Counter(labels).most_common(1)[0][0]]. *)
Definition majority_vote (labels : list Z) : result Z :=
  item <- getitem (most_common1 (Counter labels)) 0 ;; Ok (fst item).

(** ** The classifier *)

Section Knn.
Variable A : Argsort.

Definition nearest_neighbors (ds : list Z) (k : Z) : list nat :=
  slice_to (argsort A ds) k.

(** The body of the loop for one [test_point]. *)
Definition predict_point (X_train : ndarray2) (y_train : list Z) (k : Z)
    (test_point : list Z) : result Z :=
  ds <- distances X_train test_point ;;
  nearest_labels <- mapM (getitem y_train) (nearest_neighbors ds k) ;;
  majority_vote nearest_labels.

Definition knn_predict (X_train : ndarray2) (y_train : list Z)
    (X_test : ndarray2) (k : Z) : result (list Z) :=
  mapM (predict_point X_train y_train k) (rows X_test).

(** The signature [knn_predict(X_train, y_train, X_test, k=3)]: [None] is
    a call that leaves [k] out. *)
Definition knn_predict_call (X_train : ndarray2) (y_train : list Z)
    (X_test : ndarray2) (k : option Z) : result (list Z) :=
  knn_predict X_train y_train X_test (match k with Some k' => k' | None => 3 end).
End Knn.

(** ** The call on references *)

(** The arguments of a call are references to objects: two-dimensional
    arrays, one-dimensional arrays and Python lists.  A call reads the objects
    of its arguments, creates the list [y_pred], appends to it, and creates the
    array it returns; the arrays of the intermediate expressions are values
    of the model. *)
Inductive obj : Type :=
| Arr2 (a : ndarray2)
| Arr1 (a : list Z)
| PyList (l : list Z).

Definition heap : Type := list obj.
Definition ref : Type := nat.

(** Computations that read and write the heap and may raise. *)
Definition M (T : Type) : Type := heap -> result T * heap.

Definition ret {T : Type} (x : T) : M T := fun h => (Ok x, h).

Definition bindM {T U : Type} (c : M T) (f : T -> M U) : M U :=
  fun h =>
    match c h with
    | (Ok x, h') => f x h'
    | (Raise e, h') => (Raise e, h')
    end.

Notation "x <~ c ;; k" := (bindM c (fun x => k))
  (at level 61, c at next level, right associativity).

Definition lift {T : Type} (r : result T) : M T := fun h => (r, h).

Definition alloc (o : obj) : M ref := fun h => (Ok (length h), h ++ [o]).

Definition read2 (r : ref) : M ndarray2 :=
  fun h =>
    match nth_error h r with
    | Some (Arr2 a) => (Ok a, h)
    | _ => (Raise TypeError, h)
    end.

Definition read1 (r : ref) : M (list Z) :=
  fun h =>
    match nth_error h r with
    | Some (Arr1 a) => (Ok a, h)
    | _ => (Raise TypeError, h)
    end.

Definition read_list (r : ref) : M (list Z) :=
  fun h =>
    match nth_error h r with
    | Some (PyList l) => (Ok l, h)
    | _ => (Raise TypeError, h)
    end.

Fixpoint update {T : Type} (n : nat) (x : T) (l : list T) : list T :=
  match l, n with
  | [], _ => []
  | _ :: l', O => x :: l'
  | a :: l', S n' => a :: update n' x l'
  end.

(** [lst.append(v)]: the list object itself changes. *)
Definition list_append (r : ref) (v : Z) : M unit :=
  fun h =>
    match nth_error h r with
    | Some (PyList l) => (Ok tt, update r (PyList (l ++ [v])) h)
    | _ => (Raise TypeError, h)
    end.

Fixpoint for_each {T : Type} (l : list T) (body : T -> M unit) : M unit :=
  match l with
  | [] => ret tt
  | x :: l' => _ <~ body x ;; for_each l' body
  end.

(** The body of the loop, on references. *)
Definition loop_body (A : Argsort) (X_train y_train : ref) (k : Z) (y_pred : ref)
    (test_point : list Z) : M unit :=
  X <~ read2 X_train ;;
  ds <~ lift (distances X test_point) ;;
  y <~ read1 y_train ;;
  nearest_labels <~ lift (mapM (getitem y) (nearest_neighbors A ds k)) ;;
  vote <~ lift (majority_vote nearest_labels) ;;
  list_append y_pred vote.

(** [knn_predict] on references. *)
Definition knn_predict_st (A : Argsort) (X_train y_train X_test : ref) (k : Z)
    : M ref :=
  y_pred <~ alloc (PyList []) ;;
  Q <~ read2 X_test ;;
  _ <~ for_each (rows Q) (loop_body A X_train y_train k y_pred) ;;
  l <~ read_list y_pred ;;
  alloc (Arr1 l).

(** * Vocabulary of the specification *)

(** Number of items of [l[:k]] for a sequence of [n] items. *)
Definition slice_len (n : nat) (k : Z) : nat :=
  if 0 <=? k then Nat.min (Z.to_nat k) n else Z.to_nat (Z.of_nat n + k).

Definition count (l : list Z) (x : Z) : nat := count_occ Z.eq_dec l x.

(** [x] has the greatest number of occurrences in [l]. *)
Definition is_top (l : list Z) (x : Z) : bool :=
  forallb (fun c => Nat.leb (count l c) (count l x)) l.

(** The first label, in the order of [l], among those of greatest count. *)
Definition first_majority (l : list Z) : option Z := find (is_top l) l.

Definition row (X : ndarray2) (i : nat) : list Z := nth i (rows X) [].

Definition labels_of (y : list Z) (S : list nat) : list Z :=
  map (fun i => nth i y 0) S.

(** Shapes [(N, D)] and [(D',)] that numpy broadcasts together. *)
Definition broadcastable (d d' : nat) : bool :=
  Nat.eqb d' d || Nat.eqb d' 1 || Nat.eqb d 1.

(** The squared distance in the specification's words: the sum over the
    coordinates [d] of [(q[d] - x[d])^2]. *)
Definition sq_dist (q x : list Z) : Z :=
  fold_right Z.add 0
    (map (fun d => (nth d q 0 - nth d x 0) ^ 2) (seq 0 (length q))).

(** The specification's data model: rectangular arrays of one dimensionality,
    one label per training point, at least one training point, [k >= 1]. *)
Definition valid_input (X : ndarray2) (y : list Z) (Q : ndarray2) (k : Z) : bool :=
  wf_array X && wf_array Q && Nat.eqb (ncols Q) (ncols X) &&
  Nat.eqb (length y) (nrows X) && Nat.ltb 0 (nrows X) && (1 <=? k).

(** [dist(q, x) = sqrt(sum over d of (q[d] - x[d])^2)]. *)
Definition euclid (q x : list Z) : R := sqrt (IZR (sq_dist q x)).

(** The distance the code computes between two points of one dimensionality:
    [np.sqrt] of the wrapped sum of squares. *)
Definition fdist (q x : list Z) : Z := np_sqrt (wrap64 (sq_dist q x)).


(** The neighbours of a query point [t] of the dimensionality of the training
    points. *)
Definition neighbors (A : Argsort) (X : ndarray2) (k : Z) (t : list Z) : list nat :=
  nearest_neighbors A (map (fdist t) (rows X)) k.

(** [i] comes before [j] in [l]. *)
Definition precedes (i j : nat) (l : list nat) : Prop :=
  exists l1 l2 l3, l = l1 ++ i :: l2 ++ j :: l3.

(** A sort is stable when positions of equal keys come out in increasing
    order. *)
Definition stable (A : Argsort) : Prop :=
  forall ks i j, (i < j < length ks)%nat -> key_at ks i = key_at ks j ->
    precedes i j (argsort A ks).

(** Order by key, then by position. *)
Definition lex_lt (ks : list Z) (i j : nat) : Prop :=
  key_at ks i < key_at ks j \/ (key_at ks i = key_at ks j /\ (i < j)%nat).



(** The training point of position [i] is strictly closer to [q] than every
    other training point. *)
Definition unique_closest (X : ndarray2) (q : list Z) (i : nat) : Prop :=
  (i < nrows X)%nat /\
  forall j, (j < nrows X)%nat -> j <> i ->
    (euclid q (row X i) < euclid q (row X j))%R.


(** The references [rX], [ry] and [rQ] hold the three arguments. *)
Definition holds (h : heap) (rX ry rQ : ref) (X : ndarray2) (y : list Z)
    (Q : ndarray2) : Prop :=
  nth_error h rX = Some (Arr2 X) /\
  nth_error h ry = Some (Arr1 y) /\
  nth_error h rQ = Some (Arr2 Q).

(** What the caller gets: the labels of the returned array, or the
    exception. *)
Definition output (run : result ref * heap) : result (list Z) :=
  match fst run with
  | Ok r =>
      match nth_error (snd run) r with
      | Some (Arr1 a) => Ok a
      | _ => Raise TypeError
      end
  | Raise e => Raise e
  end.


(** Every row of [X] moved by the vector [v]. *)
Definition zip_add (r v : list Z) : list Z :=
  map (fun p => wrap64 (fst p + snd p)) (combine r v).

Definition translate (v : list Z) (X : ndarray2) : ndarray2 :=
  mk_array (ncols X) (map (fun r => zip_add r v) (rows X)).

(** No squared distance between two training points reaches [2^63]. *)
Definition no_overflow (X : ndarray2) : bool :=
  forallb (fun r => forallb (fun r' => sq_dist r r' <? 2 ^ 63) (rows X)) (rows X).

(** Query points of one coordinate, written out with that coordinate in each
    of [d] places. *)
Definition tile (d : nat) (Q : ndarray2) : ndarray2 :=
  mk_array d (map (fun t => repeat (hd 0 t) d) (rows Q)).

(** ** Data sets *)

(** The notebook's data set. *)
Definition X_train0 : ndarray2 := np_array 2 [[1; 2]; [2; 3]; [3; 3]; [5; 4]; [6; 5]].
Definition y_train0 : list Z := [0; 0; 0; 1; 1].
Definition X_test0 : ndarray2 := np_array 2 [[1; 2]; [5; 3]].

(** A training point whose squared distance to the query point is above
    [2^63 - 1]. *)
Definition X_over : ndarray2 := np_array 1 [[3037000500]; [5000000000]].

(** Two training points whose squared distances to the query point,
    [2^52 + 1] and [2^52], have one [float64] square root. *)
Definition X_round : ndarray2 := np_array 2 [[67108864; 1]; [67108864; 0]].

(** Two training points at the same distance from the query point. *)
Definition X_tie : ndarray2 := np_array 1 [[0]; [2]].

Definition heap0 : heap := [Arr2 X_train0; Arr1 y_train0; Arr2 X_test0].

(** * The two sorts satisfy the contract *)

Section InsertionFacts.
Variable before : Z -> Z -> bool.
Hypothesis before_le : forall a b, before a b = true -> a <= b.
Hypothesis after_le : forall a b, before a b = false -> b <= a.

Lemma insert_perm (ks : list Z) (i : nat) (l : list nat) :
  Permutation (insert before ks i l) (i :: l).
Proof.
  induction l as [|j l IH]; simpl.
  - apply Permutation_refl.
  - destruct (before (key_at ks i) (key_at ks j)).
    + apply Permutation_refl.
    + apply perm_trans with (j :: i :: l).
      * now apply perm_skip.
      * apply perm_swap.
Qed.

Lemma isort_perm (ks : list Z) (l : list nat) :
  Permutation (isort before ks l) l.
Proof.
  induction l as [|i l IH]; simpl.
  - apply perm_nil.
  - eapply perm_trans; [apply insert_perm|]. now apply perm_skip.
Qed.

Lemma insert_sorted (ks : list Z) (i : nat) (l : list nat) :
  Sorted Z.le (map (key_at ks) l) ->
  Sorted Z.le (map (key_at ks) (insert before ks i l)).
Proof.
  induction l as [|j l IH]; simpl; intros Hs.
  - constructor; constructor.
  - destruct (before (key_at ks i) (key_at ks j)) eqn:E; simpl.
    + constructor; [exact Hs|]. constructor. now apply before_le.
    + apply Sorted_inv in Hs. destruct Hs as [Hs Hhd].
      constructor; [now apply IH|].
      destruct l as [|j' l]; simpl.
      * constructor. now apply after_le.
      * destruct (before (key_at ks i) (key_at ks j')); simpl;
          constructor.
        -- now apply after_le.
        -- now apply HdRel_inv in Hhd.
Qed.

Lemma isort_sorted (ks : list Z) (l : list nat) :
  Sorted Z.le (map (key_at ks) (isort before ks l)).
Proof.
  induction l as [|i l IH]; simpl.
  - constructor.
  - now apply insert_sorted.
Qed.

Definition insertion_Argsort : Argsort :=
  mk_argsort (insertion_argsort before)
    (fun ks => isort_perm ks (seq 0 (length ks)))
    (fun ks => isort_sorted ks (seq 0 (length ks))).
End InsertionFacts.

Lemma leb_before (a b : Z) : (a <=? b) = true -> a <= b.
Proof. apply Z.leb_le. Qed.

Lemma leb_after (a b : Z) : (a <=? b) = false -> b <= a.
Proof. intros H. apply Z.leb_gt in H. lia. Qed.

Lemma ltb_before (a b : Z) : (a <? b) = true -> a <= b.
Proof. intros H. apply Z.ltb_lt in H. lia. Qed.

Lemma ltb_after (a b : Z) : (a <? b) = false -> b <= a.
Proof. apply Z.ltb_ge. Qed.

(** Equal keys keep their positions' order. *)
Definition stable_argsort : Argsort :=
  insertion_Argsort Z.leb leb_before leb_after.

(** Equal keys come out in decreasing order of position.  This is not what
    numpy does; it is a second sort within the contract, for statements made
    of every sort. *)
Definition antistable_argsort : Argsort :=
  insertion_Argsort Z.ltb ltb_before ltb_after.

(** ** Runs *)

Example notebook_run_stable :
  knn_predict stable_argsort X_train0 y_train0 X_test0 3 = Ok [0; 1].
Proof. reflexivity. Qed.

Example notebook_run_antistable :
  knn_predict antistable_argsort X_train0 y_train0 X_test0 3 = Ok [0; 1].
Proof. reflexivity. Qed.

Example argsort_ties :
  argsort stable_argsort [5; 1; 0; 5; 13] = [2; 1; 0; 3; 4]%nat /\
  argsort antistable_argsort [5; 1; 0; 5; 13] = [2; 1; 3; 0; 4]%nat.
Proof. split; reflexivity. Qed.

Example slice_to_runs :
  slice_to [10; 20; 30] 2 = [10; 20] /\ slice_to [10; 20; 30] 5 = [10; 20; 30] /\
  slice_to [10; 20; 30] 0 = [] /\ slice_to [10; 20; 30] (-1) = [10; 20] /\
  slice_to [10; 20; 30] (-4) = [].
Proof. repeat split. Qed.

Example broadcast_runs :
  sub_broadcast X_tie [1] = Ok [[-1]; [1]] /\
  sub_broadcast X_train0 [3] = Ok [[-2; -1]; [-1; 0]; [0; 0]; [2; 1]; [3; 2]] /\
  sub_broadcast X_tie [1; 2; 3] = Ok [[-1; -2; -3]; [1; 0; -1]] /\
  sub_broadcast X_train0 [1; 2; 3] = Raise ValueError.
Proof. repeat split. Qed.

Example np_sqrt_runs :
  np_sqrt 0 = 0 /\ np_sqrt 4 = 2 * 2 ^ 52 /\
  np_sqrt 2 = 6369051672525773 /\
  np_sqrt (2 ^ 52 + 1) = np_sqrt (2 ^ 52) /\
  to_f64 (2 ^ 53 + 1) = 2 ^ 53 /\ to_f64 (2 ^ 53 + 3) = 2 ^ 53 + 4 /\
  np_sqrt (2 ^ 63 - 1) = 13677434320016148376059904 /\
  np_sqrt 17 = 18568816959140892 /\ np_sqrt 5 = 10070354910243152 /\
  wrap64 (3037000500 ^ 2) = -9223372036709301616 /\
  np_sqrt (wrap64 (3037000500 ^ 2)) = nan64 /\
  wrap64 (5000000000 ^ 2) = 6553255926290448384.
Proof. repeat split. Qed.

Example distances_runs :
  distances X_train0 [5; 3] =
    Ok [np_sqrt 17; 3 * 2 ^ 52; 2 * 2 ^ 52; 1 * 2 ^ 52; np_sqrt 5] /\
  distances X_over [0] = Ok [nan64; 11528912391660395976196096] /\
  distances X_round [0; 0] = Ok [2 ^ 26 * 2 ^ 52; 2 ^ 26 * 2 ^ 52].
Proof. repeat split. Qed.

Example Counter_runs :
  Counter [1; 0; 1; 1; 0] = [(1, 3%nat); (0, 2%nat)] /\
  majority_vote [1; 0; 1; 0] = Ok 1 /\
  majority_vote [0; 1; 1; 0] = Ok 0 /\
  majority_vote [2; 1; 1] = Ok 1 /\
  majority_vote [] = Raise IndexError.
Proof. repeat split. Qed.

(** * Facts about the program *)

(** ** Facts about the exception monad *)

Lemma mapM_length {A B : Type} (f : A -> result B) (l : list A) (ys : list B) :
  mapM f l = Ok ys -> length ys = length l.
Proof.
  revert ys. induction l as [|x l IH]; simpl; intros ys H.
  - now inversion H.
  - destruct (f x) as [y|e]; simpl in H; [|discriminate].
    destruct (mapM f l) as [ys'|e]; simpl in H; [|discriminate].
    inversion H; subst. simpl. f_equal. now apply IH.
Qed.

Lemma mapM_map {A B : Type} (f : A -> result B) (g : A -> B) (l : list A) :
  (forall x, In x l -> f x = Ok (g x)) -> mapM f l = Ok (map g l).
Proof.
  induction l as [|x l IH]; simpl; intros H; [reflexivity|].
  rewrite (H x) by now left. simpl.
  rewrite IH by (intros; apply H; now right). reflexivity.
Qed.

Lemma mapM_ext {A B : Type} (f g : A -> result B) (l : list A) :
  (forall x, In x l -> f x = g x) -> mapM f l = mapM g l.
Proof.
  induction l as [|x l IH]; simpl; intros H; [reflexivity|].
  rewrite (H x) by now left.
  rewrite IH by (intros; apply H; now right). reflexivity.
Qed.

Lemma mapM_raise {A B : Type} (f : A -> result B) (e : exn) (l : list A) :
  l <> [] -> (forall x, In x l -> f x = Raise e) -> mapM f l = Raise e.
Proof.
  destruct l as [|x l]; [congruence|]. intros _ H. simpl.
  rewrite (H x) by now left. reflexivity.
Qed.

Lemma getitem_nth {A : Type} (l : list A) (i : nat) (d : A) :
  (i < length l)%nat -> getitem l i = Ok (nth i l d).
Proof.
  intros H. unfold getitem.
  destruct (nth_error l i) as [x|] eqn:E.
  - now rewrite (nth_error_nth _ _ d E).
  - apply nth_error_None in E. lia.
Qed.

(** ** Facts about slices *)

Lemma slice_to_firstn {A : Type} (l : list A) (k : Z) :
  slice_to l k = firstn (slice_len (length l) k) l.
Proof.
  unfold slice_to, slice_len. destruct (0 <=? k); [|reflexivity].
  destruct (Nat.le_ge_cases (Z.to_nat k) (length l)) as [H|H].
  - now rewrite Nat.min_l.
  - rewrite Nat.min_r by exact H. rewrite !firstn_all2; auto.
Qed.

Lemma slice_to_length {A : Type} (l : list A) (k : Z) :
  length (slice_to l k) = slice_len (length l) k.
Proof.
  rewrite slice_to_firstn, length_firstn.
  unfold slice_len. destruct (0 <=? k) eqn:E; [lia|].
  apply Z.leb_gt in E. lia.
Qed.

Lemma slice_len_zero (n : nat) (k : Z) :
  slice_len n k = 0%nat <-> n = 0%nat \/ k = 0 \/ k <= - Z.of_nat n.
Proof.
  unfold slice_len. destruct (0 <=? k) eqn:E.
  - apply Z.leb_le in E. lia.
  - apply Z.leb_gt in E. lia.
Qed.

Lemma slice_to_In {A : Type} (l : list A) (k : Z) (x : A) :
  In x (slice_to l k) -> In x l.
Proof.
  rewrite slice_to_firstn. intros H.
  rewrite <- (firstn_skipn (slice_len (length l) k) l).
  apply in_or_app. now left.
Qed.

(** ** Consequences of the sorting contract *)

Section ArgsortFacts.
Variable A : Argsort.

Lemma argsort_length (ks : list Z) : length (argsort A ks) = length ks.
Proof.
  rewrite (Permutation_length (argsort_perm A ks)). apply length_seq.
Qed.

Lemma argsort_In (ks : list Z) (i : nat) :
  In i (argsort A ks) <-> (i < length ks)%nat.
Proof.
  split; intros H.
  - apply (Permutation_in _ (argsort_perm A ks)) in H.
    apply in_seq in H. lia.
  - apply (Permutation_in _ (Permutation_sym (argsort_perm A ks))).
    apply in_seq. lia.
Qed.


Lemma argsort_strongly (ks : list Z) :
  StronglySorted Z.le (map (key_at ks) (argsort A ks)).
Proof.
  apply Sorted_StronglySorted; [|apply argsort_sorted].
  intros x y z. apply Z.le_trans.
Qed.
End ArgsortFacts.

Lemma StronglySorted_app_rel {T : Type} (R : T -> T -> Prop) (l1 l2 : list T) :
  StronglySorted R (l1 ++ l2) ->
  forall a b, In a l1 -> In b l2 -> R a b.
Proof.
  induction l1 as [|x l1 IH]; simpl; intros Hs a b Ha Hb; [contradiction|].
  apply StronglySorted_inv in Hs. destruct Hs as [Hs Hall].
  destruct Ha as [->|Ha].
  - rewrite Forall_forall in Hall. apply Hall, in_or_app. now right.
  - now apply IH.
Qed.

(** The positions kept by the slice come no later, in key order, than the
    positions dropped. *)
Lemma nearest_le_rest (A : Argsort) (ks : list Z) (k : Z) (i j : nat) :
  In i (nearest_neighbors A ks k) ->
  (j < length ks)%nat -> ~ In j (nearest_neighbors A ks k) ->
  key_at ks i <= key_at ks j.
Proof.
  unfold nearest_neighbors. rewrite slice_to_firstn.
  set (n := slice_len _ _). intros Hi Hj Hnj.
  pose proof (argsort_strongly A ks) as Hs.
  rewrite <- (firstn_skipn n (argsort A ks)), map_app in Hs.
  apply (StronglySorted_app_rel _ _ _ Hs); [now apply in_map|].
  apply in_map. apply (argsort_In A) in Hj.
  rewrite <- (firstn_skipn n (argsort A ks)) in Hj.
  apply in_app_or in Hj. tauto.
Qed.


Lemma nearest_lt (A : Argsort) (ks : list Z) (k : Z) (i : nat) :
  In i (nearest_neighbors A ks k) -> (i < length ks)%nat.
Proof.
  intros H. apply slice_to_In in H. now apply (argsort_In A).
Qed.

Lemma nearest_length (A : Argsort) (ks : list Z) (k : Z) :
  length (nearest_neighbors A ks k) = slice_len (length ks) k.
Proof.
  unfold nearest_neighbors. now rewrite slice_to_length, argsort_length.
Qed.

(** ** The vote *)

Lemma remove_induction (P : list Z -> Prop) :
  P [] ->
  (forall x l, P (remove Z.eq_dec x l) -> P (x :: l)) ->
  forall l, P l.
Proof.
  intros Hnil Hcons l.
  remember (length l) as n eqn:Hn. revert l Hn.
  induction n as [n IH] using lt_wf_ind. intros [|x l] Hn; [exact Hnil|].
  apply Hcons. apply (IH (length (remove Z.eq_dec x l))); [|reflexivity].
  simpl in Hn. pose proof (remove_length_le Z.eq_dec l x). lia.
Qed.

Lemma count_remove_neq (l : list Z) (x c : Z) :
  c <> x -> count (remove Z.eq_dec x l) c = count l c.
Proof.
  intros Hc. unfold count. induction l as [|a l IH]; simpl; [reflexivity|].
  destruct (Z.eq_dec x a) as [->|Hxa].
  - destruct (Z.eq_dec a c); [congruence|exact IH].
  - simpl. destruct (Z.eq_dec a c); now rewrite IH.
Qed.

Lemma fold_counter_cons (l : list Z) (x : Z) (n : nat) (c : list (Z * nat)) :
  fold_left counter_incr l ((x, n) :: c) =
  (x, (n + count l x)%nat) :: fold_left counter_incr (remove Z.eq_dec x l) c.
Proof.
  revert n c. induction l as [|a l IH]; intros n c.
  - simpl. now rewrite Nat.add_0_r.
  - cbn [fold_left counter_incr]. unfold count. simpl count_occ. simpl remove.
    destruct (Z.eqb_spec a x) as [->|Hax].
    + destruct (Z.eq_dec x x) as [_|]; [|congruence].
      rewrite IH. unfold count. f_equal. f_equal. lia.
    + destruct (Z.eq_dec a x) as [|_]; [congruence|].
      destruct (Z.eq_dec x a) as [|_]; [congruence|].
      rewrite IH. reflexivity.
Qed.

(** The items of a [Counter], from the front of the list. *)
Lemma Counter_cons (x : Z) (l : list Z) :
  Counter (x :: l) = (x, S (count l x)) :: Counter (remove Z.eq_dec x l).
Proof.
  unfold Counter. simpl. now rewrite fold_counter_cons.
Qed.

Lemma Counter_items (l : list Z) (c : Z) (n : nat) :
  In (c, n) (Counter l) -> n = count l c /\ In c l.
Proof.
  revert c n. induction l as [|x l IH] using remove_induction; intros c n H.
  - contradiction.
  - rewrite Counter_cons in H. destruct H as [H|H].
    + inversion H; subst. split; [|now left].
      unfold count. simpl. destruct (Z.eq_dec c c); [reflexivity|congruence].
    + apply IH in H. destruct H as [Hn Hin].
      apply in_remove in Hin. destruct Hin as [Hin Hne].
      split; [|now right].
      rewrite count_remove_neq in Hn by exact Hne.
      unfold count in *. simpl. destruct (Z.eq_dec x c); [congruence|exact Hn].
Qed.

Lemma Counter_keys (l : list Z) (c : Z) :
  In c l -> In (c, count l c) (Counter l).
Proof.
  revert c. induction l as [|x l IH] using remove_induction; intros c H.
  - contradiction.
  - rewrite Counter_cons. destruct (Z.eq_dec c x) as [->|Hne].
    + left. unfold count. simpl.
      destruct (Z.eq_dec x x); [reflexivity|congruence].
    + right. destruct H as [H|H]; [congruence|].
      assert (E : count (x :: l) c = count (remove Z.eq_dec x l) c).
      { rewrite count_remove_neq by exact Hne. unfold count. simpl.
        destruct (Z.eq_dec x c); [congruence|reflexivity]. }
      rewrite E. apply IH. now apply in_in_remove.
Qed.

Lemma find_remove (P : Z -> bool) (x : Z) (l : list Z) :
  P x = false -> find P (remove Z.eq_dec x l) = find P l.
Proof.
  intros HP. induction l as [|a l IH]; simpl; [reflexivity|].
  destruct (Z.eq_dec x a) as [->|Hne].
  - now rewrite HP.
  - simpl. destruct (P a); [reflexivity|exact IH].
Qed.

(** The keys of a [Counter] are in order of first occurrence: searching them
    is searching the list. *)
Lemma find_Counter (P : Z -> bool) (l : list Z) :
  find P (map fst (Counter l)) = find P l.
Proof.
  induction l as [|x l IH] using remove_induction; [reflexivity|].
  rewrite Counter_cons. simpl. destruct (P x) eqn:E; [reflexivity|].
  rewrite IH. now apply find_remove.
Qed.

(** [max_first] returns the first item of greatest count. *)
Lemma max_first_spec (items : list (Z * nat)) :
  forall best pre mid,
    (forall it, In it pre -> (snd it < snd best)%nat) ->
    (forall it, In it mid -> (snd it <= snd best)%nat) ->
    exists pre' post,
      pre ++ best :: mid ++ items = pre' ++ max_first best items :: post /\
      (forall it, In it pre' -> (snd it < snd (max_first best items))%nat) /\
      (forall it, In it post -> (snd it <= snd (max_first best items))%nat).
Proof.
  induction items as [|e items IH]; intros best pre mid Hpre Hmid.
  - exists pre, mid. rewrite app_nil_r. auto.
  - simpl. destruct (Nat.ltb_spec (snd best) (snd e)) as [Hlt|Hge].
    + destruct (IH e (pre ++ best :: mid) []) as (pre' & post & E & H1 & H2).
      * intros it Hit. apply in_app_or in Hit. destruct Hit as [Hit|[<-|Hit]].
        -- specialize (Hpre _ Hit). lia.
        -- exact Hlt.
        -- specialize (Hmid _ Hit). lia.
      * intros it [].
      * exists pre', post. split; [|auto].
        rewrite <- E. simpl. rewrite <- app_assoc. reflexivity.
    + destruct (IH best pre (mid ++ [e])) as (pre' & post & E & H1 & H2).
      * exact Hpre.
      * intros it Hit. apply in_app_or in Hit. destruct Hit as [Hit|[<-|[]]].
        -- now apply Hmid.
        -- exact Hge.
      * exists pre', post. split; [|auto].
        rewrite <- E. rewrite <- app_assoc. reflexivity.
Qed.

Lemma find_app_first {A : Type} (P : A -> bool) (pre post : list A) (x : A) :
  (forall y, In y pre -> P y = false) -> P x = true ->
  find P (pre ++ x :: post) = Some x.
Proof.
  induction pre as [|a pre IH]; simpl; intros Hpre Hx.
  - now rewrite Hx.
  - rewrite (Hpre a) by now left. apply IH; auto.
Qed.

Lemma is_top_spec (l : list Z) (x : Z) :
  is_top l x = true <-> forall c, In c l -> (count l c <= count l x)%nat.
Proof.
  unfold is_top. rewrite forallb_forall. split; intros H c Hc.
  - now apply Nat.leb_le, H.
  - now apply Nat.leb_le, H.
Qed.

(** The vote is the first label of greatest count, and an [IndexError] when
    there is no label. *)
Lemma majority_vote_first (l : list Z) :
  majority_vote l =
  match first_majority l with
  | Some m => Ok m
  | None => Raise IndexError
  end.
Proof.
  unfold majority_vote, first_majority.
  destruct l as [|x l]; [reflexivity|].
  rewrite <- find_Counter.
  destruct (Counter (x :: l)) as [|e items] eqn:EC.
  { rewrite Counter_cons in EC. discriminate. }
  destruct (max_first_spec items e [] []) as (pre & post & E & Hpre & Hpost);
    [intros ? []|intros ? []|].
  simpl in E.
  assert (Hr : In (max_first e items) (Counter (x :: l))).
  { rewrite EC, E. apply in_or_app. right. now left. }
  destruct (max_first e items) as [m n] eqn:Er.
  apply Counter_items in Hr. destruct Hr as [Hn Hm].
  assert (Hfind : find (is_top (x :: l)) (map fst (e :: items)) = Some m).
  { rewrite E, map_app. simpl map.
    apply find_app_first with (x := m).
    - intros y Hy. apply in_map_iff in Hy. destruct Hy as ([c nc] & <- & Hc).
      simpl. destruct (is_top (x :: l) c) eqn:Et; [|reflexivity].
      exfalso. rewrite is_top_spec in Et. specialize (Et m Hm).
      specialize (Hpre _ Hc). cbn [snd] in Hpre.
      assert (Hc' : In (c, nc) (Counter (x :: l))).
      { rewrite EC, E. apply in_or_app. now left. }
      apply Counter_items in Hc'. destruct Hc' as [Hnc _]. lia.
    - apply is_top_spec. intros c Hc. apply Counter_keys in Hc.
      rewrite EC, E in Hc. apply in_app_or in Hc.
      destruct Hc as [Hc|[Hc|Hc]].
      + specialize (Hpre _ Hc). cbn [snd] in Hpre. lia.
      + inversion Hc. lia.
      + specialize (Hpost _ Hc). cbn [snd] in Hpost. lia. }
  rewrite Hfind. unfold most_common1, getitem. simpl. now rewrite Er.
Qed.

Lemma majority_vote_nil : majority_vote [] = Raise IndexError.
Proof. reflexivity. Qed.

Lemma majority_vote_cons (x : Z) (l : list Z) :
  exists m, majority_vote (x :: l) = Ok m /\ first_majority (x :: l) = Some m.
Proof.
  pose proof (majority_vote_first (x :: l)) as H.
  unfold majority_vote in *. rewrite Counter_cons in *.
  unfold most_common1, getitem in *. simpl in H |- *.
  destruct (first_majority (x :: l)) as [m|]; [|discriminate].
  exists m. split; [exact H|reflexivity].
Qed.

Lemma count_not_In (l : list Z) (c : Z) : ~ In c l -> count l c = 0%nat.
Proof. intros H. unfold count. now apply count_occ_not_In. Qed.

Lemma first_majority_top (l : list Z) (m : Z) :
  first_majority l = Some m ->
  In m l /\ forall c, (count l c <= count l m)%nat.
Proof.
  unfold first_majority. intros H. apply find_some in H. destruct H as [Hin Ht].
  split; [exact Hin|]. intros c.
  destruct (in_dec Z.eq_dec c l) as [Hc|Hc].
  - rewrite is_top_spec in Ht. now apply Ht.
  - rewrite (count_not_In _ _ Hc). lia.
Qed.



(** ** One query point *)

Lemma sub_broadcast_ok (X : ndarray2) (t : list Z) :
  broadcastable (ncols X) (length t) = true ->
  exists diffs, sub_broadcast X t = Ok diffs /\ length diffs = nrows X.
Proof.
  unfold broadcastable, sub_broadcast, nrows. intros H.
  destruct (Nat.eqb (length t) (ncols X));
    [eexists; split; [reflexivity|apply length_map]|].
  destruct (Nat.eqb (length t) 1);
    [eexists; split; [reflexivity|apply length_map]|].
  destruct (Nat.eqb (ncols X) 1);
    [eexists; split; [reflexivity|apply length_map]|].
  discriminate.
Qed.

Lemma sub_broadcast_raise (X : ndarray2) (t : list Z) :
  broadcastable (ncols X) (length t) = false ->
  sub_broadcast X t = Raise ValueError.
Proof.
  unfold broadcastable, sub_broadcast. intros H.
  destruct (Nat.eqb (length t) (ncols X)); [discriminate|].
  destruct (Nat.eqb (length t) 1); [discriminate|].
  destruct (Nat.eqb (ncols X) 1); [discriminate|reflexivity].
Qed.

Lemma distances_ok (X : ndarray2) (t : list Z) :
  broadcastable (ncols X) (length t) = true ->
  exists ds, distances X t = Ok ds /\ length ds = nrows X.
Proof.
  intros H. destruct (sub_broadcast_ok X t H) as (diffs & E & Hl).
  unfold distances. rewrite E. simpl. eexists. split; [reflexivity|].
  now rewrite length_map.
Qed.

Lemma distances_raise (X : ndarray2) (t : list Z) :
  broadcastable (ncols X) (length t) = false ->
  distances X t = Raise ValueError.
Proof.
  intros H. unfold distances. now rewrite sub_broadcast_raise.
Qed.

Lemma distances_length (X : ndarray2) (t : list Z) (ds : list Z) :
  distances X t = Ok ds -> length ds = nrows X.
Proof.
  intros H. destruct (broadcastable (ncols X) (length t)) eqn:E.
  - destruct (distances_ok X t E) as (ds' & E' & Hl). congruence.
  - rewrite distances_raise in H by exact E. discriminate.
Qed.

Lemma nearest_labels_ok (A : Argsort) (y ds : list Z) (k : Z) :
  length y = length ds ->
  mapM (getitem y) (nearest_neighbors A ds k) =
  Ok (labels_of y (nearest_neighbors A ds k)).
Proof.
  intros H. apply mapM_map. intros i Hi. apply getitem_nth.
  rewrite H. now apply nearest_lt in Hi.
Qed.

(** With one label per training point, the prediction for a point is the
    vote of the labels of its neighbours, in the order of the sort. *)
Lemma predict_point_vote (A : Argsort) (X : ndarray2) (y : list Z) (k : Z)
    (t ds : list Z) :
  distances X t = Ok ds -> length y = nrows X ->
  predict_point A X y k t = majority_vote (labels_of y (nearest_neighbors A ds k)).
Proof.
  intros Hd Hy. unfold predict_point. rewrite Hd. simpl.
  rewrite nearest_labels_ok; [reflexivity|].
  now rewrite (distances_length _ _ _ Hd).
Qed.

Lemma labels_of_nil_iff (A : Argsort) (y ds : list Z) (k : Z) :
  labels_of y (nearest_neighbors A ds k) = [] <-> slice_len (length ds) k = 0%nat.
Proof.
  rewrite <- nearest_length with (A := A). unfold labels_of.
  destruct (nearest_neighbors A ds k); simpl; split; congruence.
Qed.

Lemma labels_of_In (y : list Z) (S : list nat) (c : Z) :
  (forall i, In i S -> (i < length y)%nat) ->
  In c (labels_of y S) -> In c y.
Proof.
  intros HS H. unfold labels_of in H. apply in_map_iff in H.
  destruct H as (i & <- & Hi). apply nth_In. now apply HS.
Qed.

(** ** Squared distances *)

Lemma sq_dist_cons (a b : Z) (q x : list Z) :
  sq_dist (a :: q) (b :: x) = (a - b) ^ 2 + sq_dist q x.
Proof.
  unfold sq_dist. cbn [length seq map fold_right nth]. f_equal.
  rewrite <- seq_shift, map_map. reflexivity.
Qed.

Lemma sq_dist_nonneg (q x : list Z) : 0 <= sq_dist q x.
Proof.
  unfold sq_dist. induction (seq 0 (length q)) as [|d l IH];
    cbn [map fold_right]; [lia|].
  assert (0 <= (nth d q 0 - nth d x 0) ^ 2)
    by (apply Z.pow_even_nonneg; now exists 1).
  lia.
Qed.

Lemma wf_array_row (X : ndarray2) (r : list Z) :
  wf_array X = true -> In r (rows X) -> length r = ncols X.
Proof.
  unfold wf_array. rewrite forallb_forall. intros H Hr.
  now apply Nat.eqb_eq, H.
Qed.

(** ** 64-bit arithmetic *)

Lemma wrap64_small (z : Z) : - 2 ^ 63 <= z < 2 ^ 63 -> wrap64 z = z.
Proof. intros H. unfold wrap64. rewrite Z.mod_small; lia. Qed.

Lemma wrap64_mod (z : Z) : wrap64 z mod 2 ^ 64 = z mod 2 ^ 64.
Proof.
  unfold wrap64. rewrite Zminus_mod_idemp_l. f_equal. lia.
Qed.

Lemma wrap64_ext (a b : Z) : a mod 2 ^ 64 = b mod 2 ^ 64 -> wrap64 a = wrap64 b.
Proof.
  intros H. unfold wrap64.
  rewrite <- (Zplus_mod_idemp_l a), H, Zplus_mod_idemp_l. reflexivity.
Qed.

Lemma wrap64_sub (a b c d : Z) :
  a mod 2 ^ 64 = c mod 2 ^ 64 -> b mod 2 ^ 64 = d mod 2 ^ 64 ->
  wrap64 (a - b) = wrap64 (c - d).
Proof.
  intros Ha Hb. apply wrap64_ext.
  rewrite Zminus_mod, Ha, Hb, <- Zminus_mod. reflexivity.
Qed.

(** One turn of the summation: the wrapped operations compute the exact
    sum modulo [2^64]. *)
Lemma wrap64_sum_step (acc a b : Z) :
  wrap64 (wrap64 acc + wrap64 (wrap64 (b - a) ^ 2)) = wrap64 (acc + (a - b) ^ 2).
Proof.
  apply wrap64_ext.
  rewrite Zplus_mod, !wrap64_mod, !Z.pow_2_r.
  rewrite (Zmult_mod (wrap64 (b - a))), !wrap64_mod, <- Zmult_mod, <- Zplus_mod.
  f_equal. ring.
Qed.

Lemma sum_sq_acc (x q : list Z) (acc : Z) :
  length x = length q ->
  fold_left (fun acc d => wrap64 (acc + wrap64 (d ^ 2))) (zip_sub x q) (wrap64 acc) =
  wrap64 (acc + sq_dist q x).
Proof.
  revert x acc. induction q as [|a q IH]; intros [|b x] acc H; try discriminate.
  - simpl. f_equal. unfold sq_dist. simpl. lia.
  - injection H as H. unfold zip_sub. cbn [combine map fold_left fst snd].
    rewrite wrap64_sum_step. fold (zip_sub x q). rewrite (IH x _ H).
    rewrite sq_dist_cons. f_equal. lia.
Qed.

(** The sum the code takes the square root of is the squared distance,
    wrapped. *)
Lemma sum_sq_zip_sub (x q : list Z) :
  length x = length q -> sum_sq (zip_sub x q) = wrap64 (sq_dist q x).
Proof.
  intros H. unfold sum_sq. change 0 with (wrap64 0) at 1.
  now rewrite (sum_sq_acc x q 0 H).
Qed.

(** ** Square roots *)


(** The grid of the binade of [f], and what rounding to nearest means. *)
Lemma sqrt_f64_bounds (f : Z) :
  0 < f < 2 ^ 64 ->
  let p := 2 ^ (Z.log2 f / 2) in
  let K := sqrt_f64 f in
  0 < p /\ p * p <= f /\
  (2 * K - p) ^ 2 <= 4 * f * 2 ^ 104 /\
  4 * f * 2 ^ 104 < (2 * K + p) ^ 2 /\
  0 < K <= 2 ^ 53 * p.
Proof.
  intros [Hf Hf64]. cbv zeta. unfold sqrt_f64.
  destruct (Z.eqb_spec f 0) as [|_]; [lia|].
  set (j := Z.log2 f / 2).
  assert (Hl : 0 <= Z.log2 f < 64).
  { split; [apply Z.log2_nonneg|]. apply Z.log2_lt_pow2; lia. }
  assert (Hj2 : 2 * j <= Z.log2 f < 2 * j + 2).
  { unfold j. pose proof (Z.div_mod (Z.log2 f) 2 ltac:(lia)).
    pose proof (Z.mod_pos_bound (Z.log2 f) 2 ltac:(lia)). lia. }
  assert (Hj : 0 <= j <= 31) by lia.
  destruct (Z.log2_spec f Hf) as [Hlo Hhi].
  set (p := 2 ^ j).
  assert (Hp : 0 < p) by (apply Z.pow_pos_nonneg; lia).
  assert (Hpp : p * p = 2 ^ (2 * j)).
  { unfold p. rewrite <- Z.pow_add_r by lia. f_equal. lia. }
  assert (Hpf : p * p <= f).
  { rewrite Hpp. eapply Z.le_trans; [|exact Hlo].
    apply Z.pow_le_mono_r; lia. }
  assert (Hfp : f < 4 * (p * p)).
  { rewrite Hpp. eapply Z.lt_le_trans; [exact Hhi|].
    replace (4 * 2 ^ (2 * j)) with (2 ^ (2 * j + 2))
      by (rewrite Z.pow_add_r by lia; lia).
    apply Z.pow_le_mono_r; lia. }
  set (E := 2 ^ (104 - 2 * j)).
  assert (HE : 0 < E) by (apply Z.pow_pos_nonneg; lia).
  assert (HET : E * (p * p) = 2 ^ 104).
  { unfold E. rewrite Hpp, <- Z.pow_add_r by lia. f_equal. lia. }
  set (F := f * E).
  assert (HF : 0 < F) by (unfold F; nia).
  destruct (Z.sqrt_spec F ltac:(lia)) as [Hq1 Hq2].
  set (q := Z.sqrt F) in *.
  assert (Hq0 : 1 <= q) by nia.
  assert (HF4 : F < 2 ^ 106).
  { unfold F. replace (2 ^ 106) with (4 * 2 ^ 104) by reflexivity.
    rewrite <- HET. nia. }
  assert (Hq53 : q < 2 ^ 53).
  { destruct (Z.lt_ge_cases q (2 ^ 53)) as [|Hge]; [assumption|].
    assert (2 ^ 53 * 2 ^ 53 <= q * q) by nia.
    change (2 ^ 53 * 2 ^ 53) with (2 ^ 106) in *. lia. }
  set (m := if q <? F - q * q then q + 1 else q).
  assert (Hm : (2 * m - 1) ^ 2 <= 4 * F /\ 4 * F < (2 * m + 1) ^ 2 /\
               1 <= m <= 2 ^ 53).
  { unfold m. destruct (Z.ltb_spec q (F - q * q)); rewrite !Z.pow_2_r; nia. }
  destruct Hm as (Hm1 & Hm2 & Hm3).
  assert (HfT : 4 * f * 2 ^ 104 = 4 * F * (p * p)) by (unfold F; rewrite <- HET; ring).
  split; [exact Hp|]. split; [exact Hpf|].
  rewrite HfT.
  replace ((2 * (m * p) - p) ^ 2) with ((2 * m - 1) ^ 2 * (p * p)) by ring.
  replace ((2 * (m * p) + p) ^ 2) with ((2 * m + 1) ^ 2 * (p * p)) by ring.
  assert (Hpp0 : 0 < p * p) by nia.
  split; [apply Z.mul_le_mono_nonneg_r; lia|].
  split; [apply Z.mul_lt_mono_pos_r; lia|].
  split; nia.
Qed.


Lemma to_f64_bounds (s : Z) : 0 < s < 2 ^ 63 -> 0 < to_f64 s < 2 ^ 64.
Proof.
  intros [Hs Hs63]. unfold to_f64.
  destruct (Z.ltb_spec (Z.log2 s) 53) as [|He]; [lia|].
  destruct (Z.log2_spec s Hs) as [Hlo Hhi].
  assert (He63 : Z.log2 s < 63) by (apply Z.log2_lt_pow2; lia).
  set (e := Z.log2 s) in *. set (sh := e - 52).
  assert (Hsh : 0 < 2 ^ sh) by (apply Z.pow_pos_nonneg; lia).
  assert (Hq1 : 2 ^ 52 <= s / 2 ^ sh).
  { apply Z.div_le_lower_bound; [lia|].
    rewrite <- Z.pow_add_r by lia. replace (sh + 52) with e by (unfold sh; lia).
    exact Hlo. }
  assert (Hq2 : s / 2 ^ sh < 2 ^ 53).
  { apply Z.div_lt_upper_bound; [lia|].
    rewrite <- Z.pow_add_r by lia. replace (sh + 53) with (Z.succ e)
      by (unfold sh; lia).
    exact Hhi. }
  set (q := s / 2 ^ sh) in *.
  assert (Hsh10 : 2 ^ sh <= 2 ^ 10) by (apply Z.pow_le_mono_r; unfold sh; lia).
  destruct ((2 ^ (sh - 1) <? s mod 2 ^ sh) ||
            ((s mod 2 ^ sh =? 2 ^ (sh - 1)) && Z.odd q)); nia.
Qed.


(** A sum that did not wrap and is not zero has a positive square root, and
    [nan] is positive in the order of the sort. *)
Lemma np_sqrt_pos (s : Z) : 0 < s < 2 ^ 63 -> 0 < np_sqrt (wrap64 s).
Proof.
  intros Hs. rewrite wrap64_small by lia. unfold np_sqrt.
  destruct (Z.ltb_spec s 0); [lia|].
  pose proof (to_f64_bounds s Hs) as Hf.
  now pose proof (sqrt_f64_bounds (to_f64 s) Hf) as (_ & _ & _ & _ & HK & _).
Qed.

(** ** Valid inputs *)

Lemma distances_valid (X : ndarray2) (t : list Z) :
  wf_array X = true -> length t = ncols X ->
  distances X t = Ok (map (fdist t) (rows X)).
Proof.
  intros Hwf Ht. unfold distances, sub_broadcast.
  rewrite (proj2 (Nat.eqb_eq _ _) Ht). simpl. f_equal.
  rewrite map_map. apply map_ext_in. intros r Hr. unfold fdist. f_equal.
  apply sum_sq_zip_sub. rewrite Ht. now apply wf_array_row.
Qed.

Lemma key_at_fdist (X : ndarray2) (t : list Z) (i : nat) :
  (i < nrows X)%nat ->
  key_at (map (fdist t) (rows X)) i = fdist t (row X i).
Proof.
  intros H. unfold key_at, row.
  rewrite nth_indep with (d' := fdist t []) by now rewrite length_map.
  apply map_nth.
Qed.


Lemma valid_input_inv (X : ndarray2) (y : list Z) (Q : ndarray2) (k : Z) :
  valid_input X y Q k = true ->
  wf_array X = true /\ (forall t, In t (rows Q) -> length t = ncols X) /\
  length y = nrows X /\ (0 < nrows X)%nat /\ 1 <= k.
Proof.
  unfold valid_input. rewrite !andb_true_iff.
  intros [[[[[HX HQ] Hd] Hy] Hn] Hk].
  apply Nat.eqb_eq in Hd, Hy. apply Nat.ltb_lt in Hn. apply Z.leb_le in Hk.
  repeat split; auto. intros t Ht. rewrite <- Hd. now apply wf_array_row.
Qed.

Lemma mapM_Forall2_ex {A B : Type} (f : A -> result B) (R : A -> B -> Prop)
    (l : list A) :
  (forall x, In x l -> exists y, f x = Ok y /\ R x y) ->
  exists ys, mapM f l = Ok ys /\ Forall2 R l ys.
Proof.
  induction l as [|x l IH]; intros H.
  - exists []. split; [reflexivity|constructor].
  - destruct (H x) as (y & E & Hy); [now left|].
    destruct IH as (ys & Es & Hys); [intros; apply H; now right|].
    exists (y :: ys). simpl. rewrite E. simpl. rewrite Es. simpl.
    split; [reflexivity|now constructor].
Qed.

Lemma neighbors_length (A : Argsort) (X : ndarray2) (k : Z) (t : list Z) :
  length (neighbors A X k t) = slice_len (nrows X) k.
Proof.
  unfold neighbors. rewrite nearest_length. now rewrite length_map.
Qed.

Lemma neighbors_lt (A : Argsort) (X : ndarray2) (k : Z) (t : list Z) (i : nat) :
  In i (neighbors A X k t) -> (i < nrows X)%nat.
Proof.
  intros H. apply nearest_lt in H. now rewrite length_map in H.
Qed.

(** On a valid input every query point gets a prediction: the first label of
    greatest count among the labels of its neighbours. *)
Lemma knn_predict_valid (A : Argsort) (X : ndarray2) (y : list Z)
    (Q : ndarray2) (k : Z) :
  valid_input X y Q k = true ->
  exists preds, knn_predict A X y Q k = Ok preds /\
    Forall2 (fun t p =>
      length t = ncols X /\
      predict_point A X y k t = Ok p /\
      first_majority (labels_of y (neighbors A X k t)) = Some p)
      (rows Q) preds.
Proof.
  intros Hv. apply valid_input_inv in Hv.
  destruct Hv as (HX & HQ & Hy & Hn & Hk).
  unfold knn_predict. apply mapM_Forall2_ex. intros t Ht.
  assert (Hl : length t = ncols X) by now apply HQ.
  rewrite (predict_point_vote A X y k t _ (distances_valid X t HX (HQ t Ht)) Hy).
  fold (neighbors A X k t).
  destruct (labels_of y (neighbors A X k t)) as [|c l] eqn:E.
  - exfalso. apply (f_equal (@length Z)) in E. unfold labels_of in E.
    rewrite length_map, neighbors_length in E. simpl in E.
    apply slice_len_zero in E. lia.
  - destruct (majority_vote_cons c l) as (m & Hm & Hf). now exists m.
Qed.

(** ** Euclidean distance *)


Lemma euclid_lt_iff (q a b : list Z) :
  sq_dist q a < sq_dist q b <-> (euclid q a < euclid q b)%R.
Proof.
  pose proof (sq_dist_nonneg q a) as Ha. pose proof (sq_dist_nonneg q b) as Hb.
  unfold euclid. split; intros H.
  - apply sqrt_lt_1_alt. split; [now apply (IZR_le 0)|now apply IZR_lt].
  - apply lt_IZR. now apply sqrt_lt_0_alt in H.
Qed.


(** ** Distinct keys leave the sort no choice *)

Lemma sorted_perm_unique (l1 l2 : list Z) :
  StronglySorted Z.le l1 -> StronglySorted Z.le l2 ->
  Permutation l1 l2 -> l1 = l2.
Proof.
  revert l2. induction l1 as [|a l1 IH]; intros l2 H1 H2 HP.
  - apply Permutation_nil in HP. now subst.
  - destruct l2 as [|b l2].
    { apply Permutation_sym, Permutation_nil in HP. discriminate. }
    apply StronglySorted_inv in H1, H2.
    destruct H1 as [H1 Ha], H2 as [H2 Hb].
    rewrite Forall_forall in Ha, Hb.
    assert (Hab : a = b).
    { assert (Hin1 : In a (b :: l2)) by (apply (Permutation_in _ HP); now left).
      assert (Hin2 : In b (a :: l1))
        by (apply (Permutation_in _ (Permutation_sym HP)); now left).
      destruct Hin1 as [->|Hin1]; [reflexivity|].
      destruct Hin2 as [->|Hin2]; [reflexivity|].
      specialize (Ha _ Hin2). specialize (Hb _ Hin1). lia. }
    subst b. f_equal. apply IH; auto. now apply Permutation_cons_inv in HP.
Qed.

Lemma map_inj_on {A B : Type} (f : A -> B) (l1 l2 : list A) :
  (forall x y, In x l1 -> In y l2 -> f x = f y -> x = y) ->
  map f l1 = map f l2 -> l1 = l2.
Proof.
  revert l2. induction l1 as [|a l1 IH]; intros [|b l2] Hinj H;
    try discriminate; [reflexivity|].
  simpl in H. injection H as Hab H. f_equal.
  - apply Hinj; auto; now left.
  - apply IH; [|exact H]. intros x y Hx Hy. apply Hinj; now right.
Qed.

Lemma argsort_unique (A B : Argsort) (ks : list Z) :
  NoDup ks -> argsort A ks = argsort B ks.
Proof.
  intros Hnd. apply map_inj_on with (f := key_at ks).
  - intros i j Hi Hj. apply argsort_In in Hi, Hj. unfold key_at.
    now apply (proj1 (NoDup_nth ks 0) Hnd).
  - apply sorted_perm_unique; try apply argsort_strongly.
    apply Permutation_map.
    apply perm_trans with (seq 0 (length ks)); [apply argsort_perm|].
    apply Permutation_sym, argsort_perm.
Qed.

Lemma knn_predict_unique (A B : Argsort) (X : ndarray2) (y : list Z)
    (Q : ndarray2) (k : Z) :
  (forall t ds, In t (rows Q) -> distances X t = Ok ds -> NoDup ds) ->
  knn_predict A X y Q k = knn_predict B X y Q k.
Proof.
  intros H. unfold knn_predict. apply mapM_ext. intros t Ht.
  unfold predict_point. destruct (distances X t) as [ds|e] eqn:E; [|reflexivity].
  simpl. unfold nearest_neighbors.
  now rewrite (argsort_unique A B ds (H t ds Ht E)).
Qed.

Lemma Forall2_In_r {A B : Type} (R : A -> B -> Prop) (l : list A) (ys : list B) :
  Forall2 R l ys -> forall y, In y ys -> exists x, In x l /\ R x y.
Proof.
  induction 1 as [|x y l ys HR _ IH]; intros z Hz; [contradiction|].
  destruct Hz as [<-|Hz].
  - exists x. split; [now left|exact HR].
  - destruct (IH z Hz) as (x' & Hx' & HR'). exists x'. split; [now right|exact HR'].
Qed.

Lemma map_nth_seq (l : list Z) :
  map (fun i => nth i l 0) (seq 0 (length l)) = l.
Proof.
  induction l as [|a l IH]; [reflexivity|].
  simpl. f_equal. rewrite <- seq_shift, map_map. exact IH.
Qed.

Lemma slice_to_all {A : Type} (l : list A) (k : Z) :
  Z.of_nat (length l) <= k -> slice_to l k = l.
Proof.
  intros H. unfold slice_to. destruct (Z.leb_spec 0 k); [|lia].
  apply firstn_all2. lia.
Qed.

(** With [k >= N] every training point is a neighbour, so the labels that
    vote are the training labels in another order. *)
Lemma labels_all_perm (A : Argsort) (X : ndarray2) (y : list Z) (k : Z)
    (t : list Z) :
  length y = nrows X -> Z.of_nat (nrows X) <= k ->
  Permutation (labels_of y (neighbors A X k t)) y.
Proof.
  intros Hy Hk. unfold neighbors, nearest_neighbors.
  rewrite slice_to_all by (now rewrite argsort_length, length_map).
  unfold labels_of.
  apply perm_trans with (map (fun i => nth i y 0) (seq 0 (length y)));
    [|now rewrite map_nth_seq].
  apply Permutation_map. rewrite Hy.
  pose proof (argsort_perm A (map (fdist t) (rows X))) as HP.
  now rewrite length_map in HP.
Qed.

(** ** Stability *)




Lemma insert_lex (ks : list Z) (i : nat) (l : list nat) :
  StronglySorted (lex_lt ks) l -> (forall j, In j l -> (i < j)%nat) ->
  StronglySorted (lex_lt ks) (insert Z.leb ks i l).
Proof.
  induction l as [|j l IH]; simpl; intros Hs Hlt.
  - constructor; constructor.
  - pose proof (StronglySorted_inv Hs) as [Hs' Hall].
    rewrite Forall_forall in Hall.
    destruct (Z.leb_spec (key_at ks i) (key_at ks j)) as [Hle|Hgt].
    + constructor; [exact Hs|]. rewrite Forall_forall. intros x Hx.
      assert (Hix : (i < x)%nat) by now apply Hlt.
      assert (Hjx : key_at ks j <= key_at ks x).
      { destruct Hx as [->|Hx]; [lia|].
        destruct (Hall x Hx) as [H|[H _]]; lia. }
      unfold lex_lt. lia.
    + constructor.
      * apply IH; [exact Hs'|]. intros x Hx. apply Hlt. now right.
      * rewrite Forall_forall. intros x Hx.
        apply (Permutation_in _ (insert_perm Z.leb ks i l)) in Hx.
        destruct Hx as [<-|Hx]; [left; lia|now apply Hall].
Qed.

Lemma isort_lex (ks : list Z) (n a : nat) :
  StronglySorted (lex_lt ks) (isort Z.leb ks (seq a n)).
Proof.
  revert a. induction n as [|n IH]; intros a; simpl; [constructor|].
  apply insert_lex; [apply IH|]. intros j Hj.
  apply (Permutation_in _ (isort_perm Z.leb ks (seq (S a) n))) in Hj.
  apply in_seq in Hj. lia.
Qed.

Lemma stable_argsort_stable : stable stable_argsort.
Proof.
  intros ks i j Hij Hkey. simpl. unfold insertion_argsort.
  pose proof (isort_lex ks (length ks) 0) as Hs.
  pose proof (isort_perm Z.leb ks (seq 0 (length ks))) as HP.
  set (l := isort Z.leb ks (seq 0 (length ks))) in *.
  assert (Hi : In i l)
    by (apply (Permutation_in _ (Permutation_sym HP)), in_seq; lia).
  assert (Hj : In j l)
    by (apply (Permutation_in _ (Permutation_sym HP)), in_seq; lia).
  apply in_split in Hi. destruct Hi as (l1 & r & E).
  rewrite E in Hj. apply in_app_or in Hj. destruct Hj as [Hj|[Hj|Hj]].
  - exfalso. rewrite E in Hs.
    assert (H : lex_lt ks j i)
      by (apply (StronglySorted_app_rel _ _ _ Hs); [exact Hj|now left]).
    unfold lex_lt in H. lia.
  - lia.
  - apply in_split in Hj. destruct Hj as (l2 & l3 & ->).
    exists l1, l2, l3. exact E.
Qed.


(** ** More neighbours than training points, and none *)

Lemma predict_point_above (A : Argsort) (X : ndarray2) (y : list Z) (k : Z)
    (t : list Z) :
  Z.of_nat (nrows X) <= k ->
  predict_point A X y k t = predict_point A X y (Z.of_nat (nrows X)) t.
Proof.
  intros Hk. unfold predict_point.
  destruct (distances X t) as [ds|e] eqn:E; [|reflexivity]. simpl.
  apply distances_length in E. unfold nearest_neighbors.
  rewrite !slice_to_all; try reflexivity; rewrite argsort_length, E; lia.
Qed.

(** With at least one label per training point, the label of every
    neighbour is there. *)
Lemma predict_point_vote_ge (A : Argsort) (X : ndarray2) (y : list Z) (k : Z)
    (t ds : list Z) :
  distances X t = Ok ds -> (nrows X <= length y)%nat ->
  predict_point A X y k t = majority_vote (labels_of y (nearest_neighbors A ds k)).
Proof.
  intros Hd Hy. unfold predict_point. rewrite Hd. simpl.
  rewrite (mapM_map (getitem y) (fun i => nth i y 0)); [reflexivity|].
  intros i Hi. apply getitem_nth. apply nearest_lt in Hi.
  rewrite (distances_length _ _ _ Hd) in Hi. lia.
Qed.

Lemma predict_point_no_neighbor (A : Argsort) (X : ndarray2) (y : list Z)
    (k : Z) (t : list Z) :
  (nrows X <= length y)%nat -> broadcastable (ncols X) (length t) = true ->
  slice_len (nrows X) k = 0%nat ->
  predict_point A X y k t = Raise IndexError.
Proof.
  intros Hy Hb Hs. destruct (distances_ok X t Hb) as (ds & E & Hl).
  rewrite (predict_point_vote_ge A X y k t ds E Hy).
  rewrite <- Hl in Hs. apply (labels_of_nil_iff A y) in Hs. now rewrite Hs.
Qed.

Lemma predict_point_some_neighbor (A : Argsort) (X : ndarray2) (y : list Z)
    (k : Z) (t : list Z) :
  (nrows X <= length y)%nat -> broadcastable (ncols X) (length t) = true ->
  slice_len (nrows X) k <> 0%nat ->
  exists p, predict_point A X y k t = Ok p.
Proof.
  intros Hy Hb Hs. destruct (distances_ok X t Hb) as (ds & E & Hl).
  rewrite (predict_point_vote_ge A X y k t ds E Hy).
  destruct (labels_of y (nearest_neighbors A ds k)) as [|c l] eqn:El.
  - apply labels_of_nil_iff in El. congruence.
  - destruct (majority_vote_cons c l) as (m & Hm & _). now exists m.
Qed.

(** ** The heap *)

Lemma nth_error_old (h ext : heap) (r : ref) (o : obj) :
  nth_error h r = Some o -> nth_error (h ++ ext) r = Some o.
Proof.
  intros H. rewrite nth_error_app1; [exact H|].
  apply nth_error_Some. congruence.
Qed.

Lemma nth_error_new (h : heap) (o : obj) (ext : heap) :
  nth_error (h ++ o :: ext) (length h) = Some o.
Proof.
  rewrite nth_error_app2 by lia. now rewrite Nat.sub_diag.
Qed.

Lemma update_new (h : heap) (o o' : obj) :
  update (length h) o' (h ++ [o]) = h ++ [o'].
Proof.
  induction h as [|a h IH]; simpl; [reflexivity|]. now rewrite IH.
Qed.


(** One turn of the loop appends the prediction for the point to [y_pred],
    or raises and leaves the heap as it is. *)
Lemma loop_body_run (A : Argsort) (h : heap) (rX ry rQ : ref) (X : ndarray2)
    (y : list Z) (Q : ndarray2) (k : Z) (acc t : list Z) :
  holds h rX ry rQ X y Q ->
  loop_body A rX ry k (length h) t (h ++ [PyList acc]) =
  match predict_point A X y k t with
  | Ok v => (Ok tt, h ++ [PyList (acc ++ [v])])
  | Raise e => (Raise e, h ++ [PyList acc])
  end.
Proof.
  intros (HX & Hy & _).
  unfold loop_body, predict_point, bindM, read2, read1, lift, list_append.
  rewrite (nth_error_old _ _ _ _ HX).
  destruct (distances X t) as [ds|e]; [|reflexivity]. simpl.
  rewrite (nth_error_old _ _ _ _ Hy).
  destruct (mapM (getitem y) (nearest_neighbors A ds k)) as [ls|e];
    [|reflexivity]. simpl.
  destruct (majority_vote ls) as [v|e]; [|reflexivity].
  now rewrite nth_error_new, update_new.
Qed.

(** The loop leaves in [y_pred] the predictions made so far. *)
Lemma for_each_run (A : Argsort) (h : heap) (rX ry rQ : ref) (X : ndarray2)
    (y : list Z) (Q : ndarray2) (k : Z) (l : list (list Z)) :
  holds h rX ry rQ X y Q ->
  forall acc, exists acc',
    for_each l (loop_body A rX ry k (length h)) (h ++ [PyList acc]) =
    (match mapM (predict_point A X y k) l with
     | Ok _ => Ok tt
     | Raise e => Raise e
     end, h ++ [PyList acc']) /\
    forall ps, mapM (predict_point A X y k) l = Ok ps -> acc' = acc ++ ps.
Proof.
  intros Hh. induction l as [|t l IH]; intros acc.
  - exists acc. split; [reflexivity|]. intros ps H. inversion H.
    now rewrite app_nil_r.
  - simpl. unfold bindM at 1. rewrite (loop_body_run A h rX ry rQ X y Q k acc t Hh).
    destruct (predict_point A X y k t) as [v|e]; simpl.
    + destruct (IH (acc ++ [v])) as (acc' & E & Hacc).
      exists acc'. rewrite E. split.
      * destruct (mapM (predict_point A X y k) l); reflexivity.
      * intros ps H. destruct (mapM (predict_point A X y k) l) as [ps'|];
          simpl in H; [|discriminate].
        inversion H; subst. rewrite (Hacc ps' eq_refl).
        now rewrite <- app_assoc.
    + exists acc. split; [reflexivity|discriminate].
Qed.

(** A call creates [y_pred] and the returned array after the objects of
    the heap, and nothing else. *)
Lemma knn_predict_st_eq (A : Argsort) (h : heap) (rX ry rQ : ref)
    (X : ndarray2) (y : list Z) (Q : ndarray2) (k : Z) :
  holds h rX ry rQ X y Q ->
  exists acc,
    knn_predict_st A rX ry rQ k h =
    match knn_predict A X y Q k with
    | Ok ps => (Ok (S (length h)), h ++ [PyList ps; Arr1 ps])
    | Raise e => (Raise e, h ++ [PyList acc])
    end.
Proof.
  intros Hh. pose proof Hh as (_ & _ & HQ).
  destruct (for_each_run A h rX ry rQ X y Q k (rows Q) Hh []) as (acc & E & Hacc).
  exists acc.
  unfold knn_predict_st, alloc. unfold bindM at 1. unfold bindM at 1.
  unfold read2 at 1. rewrite (nth_error_old _ _ _ _ HQ).
  unfold bindM at 1. rewrite E. fold (knn_predict A X y Q k) in *.
  destruct (knn_predict A X y Q k) as [ps|e]; [|reflexivity].
  rewrite (Hacc ps eq_refl). simpl app.
  unfold bindM, read_list. rewrite nth_error_new.
  rewrite <- app_assoc. simpl app. f_equal. f_equal.
  rewrite length_app. simpl. lia.
Qed.

(** A call returns what [knn_predict] computes from the values of its
    arguments, and only adds objects to the heap. *)
Lemma knn_predict_st_run (A : Argsort) (h : heap) (rX ry rQ : ref)
    (X : ndarray2) (y : list Z) (Q : ndarray2) (k : Z) :
  holds h rX ry rQ X y Q ->
  output (knn_predict_st A rX ry rQ k h) = knn_predict A X y Q k /\
  exists ext, snd (knn_predict_st A rX ry rQ k h) = h ++ ext.
Proof.
  intros Hh. destruct (knn_predict_st_eq A h rX ry rQ X y Q k Hh) as (acc & E).
  rewrite E. destruct (knn_predict A X y Q k) as [ps|e].
  - split; [|now eexists]. unfold output. cbn [fst snd].
    rewrite nth_error_app2 by lia.
    replace (S (length h) - length h)%nat with 1%nat by lia. reflexivity.
  - split; [reflexivity|now eexists].
Qed.


(** ** The data set with a wrapped square *)

Ltac nodup_Z :=
  repeat (constructor; [simpl; intuition discriminate|]); constructor.


(** * The claims *)

(** ** C1: the algorithm *)





(** ** C2: the notebook's run *)

(** C2. On the notebook's data set, with the query points [[1,2]] and
    [[5,3]] and [k = 3], [knn_predict] returns [[0, 1]], whichever sort
    satisfying the contract of [np.argsort] is used. *)
Theorem knn_predict_notebook (A : Argsort) :
  knn_predict A (np_array 2 [[1; 2]; [2; 3]; [3; 3]; [5; 4]; [6; 5]])
    [0; 0; 0; 1; 1] (np_array 2 [[1; 2]; [5; 3]]) 3 = Ok [0; 1].
Proof.
  rewrite (knn_predict_unique A stable_argsort); [reflexivity|].
  intros t ds [<-|[<-|[]]] E; vm_compute in E; injection E as <-; nodup_Z.
Qed.

(** ** C3: failures *)

(** C3 (as amended). [knn_predict] checks none of its arguments.  For a
    two-dimensional query array and at least one label per training point:
    with no query point it returns the empty sequence; otherwise it raises
    [ValueError] when the two dimensionalities differ and neither is 1,
    raises [IndexError] when they broadcast and the slice [[:k]] keeps no
    neighbour (no training point, [k = 0] or [k <= -N]), and in every other
    case, valid inputs included, returns one label per query point. *)
Theorem knn_predict_outcome (A : Argsort) (X : ndarray2) (y : list Z)
    (Q : ndarray2) (k : Z) :
  wf_array Q = true -> (nrows X <= length y)%nat ->
  (nrows Q = 0%nat -> knn_predict A X y Q k = Ok []) /\
  ((0 < nrows Q)%nat -> broadcastable (ncols X) (ncols Q) = false ->
   knn_predict A X y Q k = Raise ValueError) /\
  ((0 < nrows Q)%nat -> broadcastable (ncols X) (ncols Q) = true ->
   nrows X = 0%nat \/ k = 0 \/ k <= - Z.of_nat (nrows X) ->
   knn_predict A X y Q k = Raise IndexError) /\
  (broadcastable (ncols X) (ncols Q) = true ->
   (0 < nrows X)%nat -> k <> 0 -> - Z.of_nat (nrows X) < k ->
   exists preds, knn_predict A X y Q k = Ok preds /\ length preds = nrows Q) /\
  (valid_input X y Q k = true ->
   exists preds, knn_predict A X y Q k = Ok preds /\ length preds = nrows Q).
Proof.
  intros HQ Hy.
  assert (Hrow : forall t, In t (rows Q) -> length t = ncols Q)
    by (intros t Ht; now apply wf_array_row).
  unfold knn_predict, nrows at 1 2 3.
  split; [|split; [|split; [|split]]].
  - intros H. apply length_zero_iff_nil in H. now rewrite H.
  - intros Hn Hb. apply mapM_raise.
    + intros E. rewrite E in Hn. simpl in Hn. lia.
    + intros t Ht. unfold predict_point.
      rewrite distances_raise; [reflexivity|]. now rewrite (Hrow t Ht).
  - intros Hn Hb Hs. apply mapM_raise.
    + intros E. rewrite E in Hn. simpl in Hn. lia.
    + intros t Ht. apply predict_point_no_neighbor; auto.
      * now rewrite (Hrow t Ht).
      * now apply slice_len_zero.
  - intros Hb Hn Hk0 Hk.
    destruct (mapM_Forall2_ex (predict_point A X y k) (fun _ _ => True) (rows Q))
      as (preds & E & _).
    + intros t Ht.
      destruct (predict_point_some_neighbor A X y k t) as (p & Hp); auto.
      * now rewrite (Hrow t Ht).
      * rewrite slice_len_zero. lia.
      * now exists p.
    + exists preds. split; [exact E|]. now apply mapM_length in E.
  - intros Hv. destruct (knn_predict_valid A X y Q k Hv) as (preds & E & _).
    exists preds. split; [exact E|]. now apply mapM_length in E.
Qed.

Lemma knn_predict_outcome_witness :
  knn_predict stable_argsort X_train0 y_train0 (np_array 3 [[1; 2; 3]]) 3 =
    Raise ValueError /\
  knn_predict stable_argsort X_train0 y_train0 X_test0 0 = Raise IndexError /\
  knn_predict stable_argsort X_train0 y_train0 X_test0 (-5) = Raise IndexError /\
  (exists preds,
     knn_predict stable_argsort X_train0 y_train0 X_test0 (-1) = Ok preds /\
     length preds = nrows X_test0).
Proof.
  split; [|split; [|split]].
  - apply (knn_predict_outcome stable_argsort X_train0 y_train0
             (np_array 3 [[1; 2; 3]]) 3); try reflexivity.
    change (0 < 1)%nat. lia.
  - apply (knn_predict_outcome stable_argsort X_train0 y_train0 X_test0 0);
      try reflexivity.
    + change (0 < 2)%nat. lia.
    + right. left. reflexivity.
  - apply (knn_predict_outcome stable_argsort X_train0 y_train0 X_test0 (-5));
      try reflexivity.
    + change (0 < 2)%nat. lia.
    + change (5%nat = 0%nat \/ -5 = 0 \/ -5 <= -5). lia.
  - destruct (knn_predict_outcome stable_argsort X_train0 y_train0 X_test0 (-1)
                eq_refl (le_n 5)) as (_ & _ & _ & H & _).
    apply H.
    + reflexivity.
    + change (0 < 5)%nat. lia.
    + lia.
    + change (-5 < -1). lia.
Defined.

(** C3 (as stated) fails: a negative [k], a query point of another
    dimensionality, and an empty training set with [k = 0] all get a
    result instead of a failure. *)
Lemma knn_predict_outcome_counterexample :
  knn_predict stable_argsort X_train0 y_train0 X_test0 (-1) = Ok [0; 1] /\
  knn_predict stable_argsort X_train0 y_train0 (np_array 1 [[3]]) 3 = Ok [0] /\
  knn_predict stable_argsort (np_array 2 []) [] (np_array 2 []) 0 = Ok [].
Proof. repeat split. Qed.

(** ** C4: ties *)






(** ** C5: one label per query point *)

(** C5. On a valid input the output has one label per query point, the
    label at a position being the prediction for the query point at that
    position; and with no query point the output is empty, whatever the
    training set and [k]. *)
Theorem knn_predict_length (A : Argsort) (X : ndarray2) (y : list Z)
    (Q : ndarray2) (k : Z) :
  (valid_input X y Q k = true ->
   exists preds, knn_predict A X y Q k = Ok preds /\
     length preds = nrows Q /\
     Forall2 (fun q p => predict_point A X y k q = Ok p) (rows Q) preds) /\
  (nrows Q = 0%nat -> knn_predict A X y Q k = Ok []).
Proof.
  split.
  - intros Hv. destruct (knn_predict_valid A X y Q k Hv) as (preds & E & HF).
    exists preds. split; [exact E|]. split.
    + now apply mapM_length in E.
    + eapply Forall2_impl; [|exact HF]. now intros q p (_ & H & _).
  - unfold nrows, knn_predict. intros H. apply length_zero_iff_nil in H.
    now rewrite H.
Qed.

Lemma knn_predict_length_witness :
  (exists preds,
     knn_predict stable_argsort X_train0 y_train0 X_test0 3 = Ok preds /\
     length preds = nrows X_test0 /\
     Forall2 (fun q p => predict_point stable_argsort X_train0 y_train0 3 q = Ok p)
       (rows X_test0) preds) /\
  knn_predict stable_argsort (np_array 2 []) [] (np_array 2 []) 0 = Ok [].
Proof.
  split.
  - apply (proj1 (knn_predict_length stable_argsort X_train0 y_train0 X_test0 3)).
    reflexivity.
  - apply (proj2 (knn_predict_length stable_argsort (np_array 2 []) []
                    (np_array 2 []) 0)).
    reflexivity.
Defined.

(** ** C6: more neighbours asked for than there are training points *)

(** C6. With [k] greater than the number [N] of training points the call
    returns what the call with [k = N] returns, and on a valid input every
    prediction is a training label that no label outnumbers among the [N]
    training labels. *)
Theorem knn_predict_k_above_N (A : Argsort) (X : ndarray2) (y : list Z)
    (Q : ndarray2) (k : Z) :
  Z.of_nat (nrows X) < k ->
  knn_predict A X y Q k = knn_predict A X y Q (Z.of_nat (nrows X)) /\
  (valid_input X y Q k = true ->
   exists preds, knn_predict A X y Q k = Ok preds /\
     length preds = nrows Q /\
     forall p, In p preds -> In p y /\ forall c, (count y c <= count y p)%nat).
Proof.
  intros Hk. split.
  - unfold knn_predict. apply mapM_ext. intros t _.
    apply predict_point_above. lia.
  - intros Hv. destruct (knn_predict_valid A X y Q k Hv) as (preds & E & HF).
    apply valid_input_inv in Hv. destruct Hv as (HX & HQ & Hy & Hn & _).
    exists preds. split; [exact E|]. split; [now apply mapM_length in E|].
    intros p Hp. destruct (Forall2_In_r _ _ _ HF p Hp) as (t & _ & _ & _ & Hf).
    apply first_majority_top in Hf. destruct Hf as [Hin Htop].
    assert (HP : Permutation (labels_of y (neighbors A X k t)) y)
      by (apply labels_all_perm; [exact Hy|lia]).
    split; [now apply (Permutation_in _ HP)|].
    intros c. specialize (Htop c). unfold count in *.
    now rewrite !(proj1 (Permutation_count_occ Z.eq_dec _ _) HP) in Htop.
Qed.

Lemma knn_predict_k_above_N_witness :
  knn_predict stable_argsort X_train0 y_train0 X_test0 7 =
  knn_predict stable_argsort X_train0 y_train0 X_test0 5 /\
  exists preds, knn_predict stable_argsort X_train0 y_train0 X_test0 7 = Ok preds /\
    length preds = nrows X_test0 /\
    forall p, In p preds ->
      In p y_train0 /\ forall c, (count y_train0 c <= count y_train0 p)%nat.
Proof.
  destruct (knn_predict_k_above_N stable_argsort X_train0 y_train0 X_test0 7)
    as [H1 H2]; [reflexivity|].
  split; [exact H1|]. apply H2. reflexivity.
Defined.

(** ** C7: a single neighbour *)

(** The first query point of the notebook has a unique closest training
    point, the first one. *)
Example unique_closest_notebook : unique_closest X_train0 [1; 2] 0.
Proof.
  split; [unfold nrows; simpl; lia|]. intros j Hj Hne. apply euclid_lt_iff.
  unfold nrows in Hj. simpl in Hj.
  destruct j as [|[|[|[|[|j]]]]]; try lia; reflexivity.
Qed.




(** ** C8: determinism and the objects of a call *)



Example knn_predict_st_notebook :
  knn_predict_st stable_argsort 0%nat 1%nat 2%nat 3 heap0 =
  (Ok 4%nat, heap0 ++ [PyList [0; 1]; Arr1 [0; 1]]).
Proof. reflexivity. Qed.

(** ** C9: predictions are training labels *)

(** C9. On a valid input every label of the output is one of the training
    labels; so when all training labels are one label, every prediction is
    that label, whatever [k] and the query points. *)
Theorem knn_predict_labels (A : Argsort) (X : ndarray2) (y : list Z)
    (Q : ndarray2) (k : Z) :
  valid_input X y Q k = true ->
  exists preds, knn_predict A X y Q k = Ok preds /\
    length preds = nrows Q /\
    (forall p, In p preds -> In p y) /\
    (forall c0, (forall c, In c y -> c = c0) -> forall p, In p preds -> p = c0).
Proof.
  intros Hv. destruct (knn_predict_valid A X y Q k Hv) as (preds & E & HF).
  apply valid_input_inv in Hv. destruct Hv as (HX & HQ & Hy & Hn & _).
  assert (Hin : forall p, In p preds -> In p y).
  { intros p Hp. destruct (Forall2_In_r _ _ _ HF p Hp) as (t & _ & _ & _ & Hf).
    apply first_majority_top in Hf. destruct Hf as [Hin _].
    apply labels_of_In in Hin; [exact Hin|].
    intros i Hi. rewrite Hy. now apply neighbors_lt in Hi. }
  exists preds. split; [exact E|]. split; [now apply mapM_length in E|].
  split; [exact Hin|]. intros c0 Hall p Hp. apply Hall. now apply Hin.
Qed.

Lemma knn_predict_labels_witness :
  exists preds,
    knn_predict stable_argsort X_train0 [4; 4; 4; 4; 4] X_test0 2 = Ok preds /\
    length preds = nrows X_test0 /\
    (forall p, In p preds -> In p [4; 4; 4; 4; 4]) /\
    (forall c0, (forall c, In c [4; 4; 4; 4; 4] -> c = c0) ->
       forall p, In p preds -> p = c0).
Proof. apply knn_predict_labels. reflexivity. Defined.

(** ** C10: the default [k] *)

(** C10. A call that leaves [k] out returns what the call with [k = 3]
    returns. *)
Theorem knn_predict_default_k (A : Argsort) (X : ndarray2) (y : list Z)
    (Q : ndarray2) :
  knn_predict_call A X y Q None = knn_predict A X y Q 3 /\
  knn_predict_call A X y Q None = knn_predict_call A X y Q (Some 3).
Proof. split; reflexivity. Qed.

(** * Further properties of [knn_predict] *)

(** ** The slice [[:k]] for a negative [k] *)

Lemma slice_len_negative (n : nat) (k : Z) :
  k < 0 -> slice_len n k = slice_len n (Z.max 0 (Z.of_nat n + k)).
Proof.
  intros Hk. unfold slice_len.
  destruct (Z.leb_spec 0 k); [lia|].
  destruct (Z.leb_spec 0 (Z.max 0 (Z.of_nat n + k))); lia.
Qed.

(** X1. A negative [k] is taken as [N + k] neighbours, and as none when
    [N + k] is negative: the call returns what the call with
    [max 0 (N + k)] returns. *)
Theorem knn_predict_negative_k (A : Argsort) (X : ndarray2) (y : list Z)
    (Q : ndarray2) (k : Z) :
  k < 0 ->
  knn_predict A X y Q k =
  knn_predict A X y Q (Z.max 0 (Z.of_nat (nrows X) + k)).
Proof.
  intros Hk. unfold knn_predict. apply mapM_ext. intros t _.
  unfold predict_point.
  destruct (distances X t) as [ds|e] eqn:E; [|reflexivity]. simpl.
  apply distances_length in E. unfold nearest_neighbors.
  rewrite !slice_to_firstn, argsort_length, E.
  now rewrite (slice_len_negative _ _ Hk).
Qed.

Lemma knn_predict_negative_k_witness :
  knn_predict stable_argsort X_train0 y_train0 X_test0 (-2) =
  knn_predict stable_argsort X_train0 y_train0 X_test0
    (Z.max 0 (Z.of_nat (nrows X_train0) + -2)).
Proof. apply knn_predict_negative_k. lia. Defined.

(** ** The labels that are read *)

Lemma getitem_firstn (y : list Z) (n i : nat) :
  (i < n)%nat -> getitem (firstn n y) i = getitem y i.
Proof.
  intros H. unfold getitem. rewrite nth_error_firstn.
  now rewrite (proj2 (Nat.ltb_lt i n) H).
Qed.

(** X2. The labels after the [N]-th are never read: the call returns what
    it returns on the first [N] labels. *)
Theorem knn_predict_labels_beyond (A : Argsort) (X : ndarray2) (y : list Z)
    (Q : ndarray2) (k : Z) :
  knn_predict A X y Q k = knn_predict A X (firstn (nrows X) y) Q k.
Proof.
  unfold knn_predict. apply mapM_ext. intros t _. unfold predict_point.
  destruct (distances X t) as [ds|e] eqn:E; [|reflexivity]. simpl.
  apply distances_length in E.
  rewrite (mapM_ext (getitem y) (getitem (firstn (nrows X) y))); [reflexivity|].
  intros i Hi. symmetry. apply getitem_firstn.
  apply nearest_lt in Hi. lia.
Qed.

Lemma mapM_getitem_raise (y : list Z) (l : list nat) (i : nat) :
  In i l -> (length y <= i)%nat -> mapM (getitem y) l = Raise IndexError.
Proof.
  intros Hi Hy. induction l as [|j l IH]; [contradiction|]. simpl.
  unfold getitem at 1. destruct (nth_error y j) as [c|] eqn:E; [|reflexivity].
  simpl. destruct Hi as [->|Hi].
  - apply nth_error_None in Hy. congruence.
  - now rewrite (IH Hi).
Qed.

(** X3. With fewer labels than training points and [k >= N], a call with
    a query point of a dimensionality that broadcasts raises [IndexError]:
    the label of some neighbour is missing. *)
Theorem knn_predict_missing_label (A : Argsort) (X : ndarray2) (y : list Z)
    (Q : ndarray2) (k : Z) :
  wf_array Q = true -> broadcastable (ncols X) (ncols Q) = true ->
  (0 < nrows Q)%nat -> (length y < nrows X)%nat -> Z.of_nat (nrows X) <= k ->
  knn_predict A X y Q k = Raise IndexError.
Proof.
  intros HQ Hb Hn Hy Hk. unfold knn_predict. apply mapM_raise.
  - intros E. unfold nrows in Hn. rewrite E in Hn. simpl in Hn. lia.
  - intros t Ht. unfold predict_point.
    rewrite <- (wf_array_row Q t HQ Ht) in Hb.
    destruct (distances_ok X t Hb) as (ds & E & Hl). rewrite E. simpl.
    rewrite (mapM_getitem_raise y _ (length y)); [reflexivity| |lia].
    unfold nearest_neighbors. rewrite slice_to_all.
    + apply argsort_In. lia.
    + rewrite argsort_length. lia.
Qed.

Lemma knn_predict_missing_label_witness :
  knn_predict stable_argsort X_train0 [0; 0; 0; 1] X_test0 5 = Raise IndexError.
Proof.
  apply knn_predict_missing_label; try reflexivity.
  - change (0 < 2)%nat. lia.
  - change (4 < 5)%nat. lia.
Defined.

Lemma mapM_inv {T U : Type} (f : T -> result U) (l : list T) (ys : list U) :
  mapM f l = Ok ys -> Forall2 (fun x y => f x = Ok y) l ys.
Proof.
  revert ys. induction l as [|x l IH]; simpl; intros ys H.
  - inversion H. constructor.
  - destruct (f x) as [y|e] eqn:E; simpl in H; [|discriminate].
    destruct (mapM f l) as [ys'|e]; simpl in H; [|discriminate].
    inversion H; subst. constructor; [exact E|now apply IH].
Qed.

Lemma getitem_In (y : list Z) (i : nat) (c : Z) : getitem y i = Ok c -> In c y.
Proof.
  unfold getitem. destruct (nth_error y i) as [c'|] eqn:E; [|discriminate].
  intros H. inversion H; subst. now apply nth_error_In in E.
Qed.

Lemma majority_vote_In (l : list Z) (p : Z) : majority_vote l = Ok p -> In p l.
Proof.
  rewrite majority_vote_first.
  destruct (first_majority l) as [m|] eqn:E; [|discriminate].
  intros H. inversion H; subst. now apply first_majority_top in E.
Qed.

Lemma predict_point_In (A : Argsort) (X : ndarray2) (y : list Z) (k : Z)
    (t : list Z) (p : Z) :
  predict_point A X y k t = Ok p -> In p y.
Proof.
  unfold predict_point.
  destruct (distances X t) as [ds|e]; [|discriminate]. simpl.
  destruct (mapM (getitem y) (nearest_neighbors A ds k)) as [ls|e] eqn:E;
    [|discriminate]. simpl.
  intros H. apply majority_vote_In in H. apply mapM_inv in E.
  destruct (Forall2_In_r _ _ _ E p H) as (i & _ & Hi).
  now apply getitem_In in Hi.
Qed.

(** X4. Whatever the arguments, valid or not, a call that returns gives
    one label per query point, and each of them is one of [y_train]. *)
Theorem knn_predict_returns_labels (A : Argsort) (X : ndarray2) (y : list Z)
    (Q : ndarray2) (k : Z) (preds : list Z) :
  knn_predict A X y Q k = Ok preds ->
  length preds = nrows Q /\ forall p, In p preds -> In p y.
Proof.
  intros H. split; [now apply mapM_length in H|].
  intros p Hp. apply mapM_inv in H.
  destruct (Forall2_In_r _ _ _ H p Hp) as (t & _ & Ht).
  now apply predict_point_In in Ht.
Qed.

Lemma knn_predict_returns_labels_witness :
  length [0; 1] = nrows X_test0 /\ forall p, In p [0; 1] -> In p y_train0.
Proof.
  apply (knn_predict_returns_labels stable_argsort X_train0 y_train0 X_test0 (-1)).
  reflexivity.
Defined.

(** ** Batches of query points *)

Lemma mapM_app {T U : Type} (f : T -> result U) (l1 l2 : list T) :
  mapM f (l1 ++ l2) =
  (ys1 <- mapM f l1 ;; ys2 <- mapM f l2 ;; Ok (ys1 ++ ys2)).
Proof.
  induction l1 as [|x l1 IH]; simpl.
  - destruct (mapM f l2); reflexivity.
  - destruct (f x) as [y|e]; simpl; [|reflexivity]. rewrite IH.
    destruct (mapM f l1) as [ys1|e]; simpl; [|reflexivity].
    destruct (mapM f l2); reflexivity.
Qed.

(** X5. A call on a query array whose rows are those of a first array
    followed by those of a second one returns the predictions of the call on
    the first followed by those of the call on the second, or the exception
    of the first call, or else of the second; when both calls return, the list
    [y_pred] that the call built holds the two sequences of predictions, one
    after the other, and so does the array it returns. *)
Theorem knn_predict_batches (A : Argsort) (h h1 h2 : heap)
    (rX ry rQ rX1 ry1 rQ1 rX2 ry2 rQ2 : ref) (X : ndarray2) (y : list Z)
    (d : nat) (q1 q2 : list (list Z)) (k : Z) :
  holds h rX ry rQ X y (np_array d (q1 ++ q2)) ->
  holds h1 rX1 ry1 rQ1 X y (np_array d q1) ->
  holds h2 rX2 ry2 rQ2 X y (np_array d q2) ->
  output (knn_predict_st A rX ry rQ k h) =
  (ps1 <- output (knn_predict_st A rX1 ry1 rQ1 k h1) ;;
   ps2 <- output (knn_predict_st A rX2 ry2 rQ2 k h2) ;;
   Ok (ps1 ++ ps2)) /\
  forall ps1 ps2,
    output (knn_predict_st A rX1 ry1 rQ1 k h1) = Ok ps1 ->
    output (knn_predict_st A rX2 ry2 rQ2 k h2) = Ok ps2 ->
    knn_predict_st A rX ry rQ k h =
    (Ok (S (length h)), h ++ [PyList (ps1 ++ ps2); Arr1 (ps1 ++ ps2)]).
Proof.
  intros H H1 H2.
  rewrite (proj1 (knn_predict_st_run A h rX ry rQ X y _ k H)).
  rewrite (proj1 (knn_predict_st_run A h1 rX1 ry1 rQ1 X y _ k H1)).
  rewrite (proj1 (knn_predict_st_run A h2 rX2 ry2 rQ2 X y _ k H2)).
  assert (E : knn_predict A X y (np_array d (q1 ++ q2)) k =
              (ps1 <- knn_predict A X y (np_array d q1) k ;;
               ps2 <- knn_predict A X y (np_array d q2) k ;;
               Ok (ps1 ++ ps2)))
    by (unfold knn_predict; simpl; apply mapM_app).
  split; [exact E|]. intros ps1 ps2 E1 E2.
  destruct (knn_predict_st_eq A h rX ry rQ X y _ k H) as (acc & Eq).
  rewrite Eq, E, E1, E2. reflexivity.
Qed.

Lemma knn_predict_batches_witness :
  output (knn_predict_st stable_argsort 0%nat 1%nat 2%nat 3 heap0) =
  (ps1 <- output (knn_predict_st stable_argsort 0%nat 1%nat 2%nat 3
                    [Arr2 X_train0; Arr1 y_train0; Arr2 (np_array 2 [[1; 2]])]) ;;
   ps2 <- output (knn_predict_st stable_argsort 2%nat 1%nat 0%nat 3
                    [Arr2 (np_array 2 [[5; 3]]); Arr1 y_train0; Arr2 X_train0]) ;;
   Ok (ps1 ++ ps2)) /\
  forall ps1 ps2,
    output (knn_predict_st stable_argsort 0%nat 1%nat 2%nat 3
              [Arr2 X_train0; Arr1 y_train0; Arr2 (np_array 2 [[1; 2]])]) = Ok ps1 ->
    output (knn_predict_st stable_argsort 2%nat 1%nat 0%nat 3
              [Arr2 (np_array 2 [[5; 3]]); Arr1 y_train0; Arr2 X_train0]) = Ok ps2 ->
    knn_predict_st stable_argsort 0%nat 1%nat 2%nat 3 heap0 =
    (Ok (S (length heap0)), heap0 ++ [PyList (ps1 ++ ps2); Arr1 (ps1 ++ ps2)]).
Proof.
  apply (knn_predict_batches stable_argsort heap0 _ _ 0%nat 1%nat 2%nat
           0%nat 1%nat 2%nat 2%nat 1%nat 0%nat X_train0 y_train0 2
           [[1; 2]] [[5; 3]] 3); repeat split; reflexivity.
Defined.

(** ** Moving the points *)

Lemma zip_sub_zip_add (r t v : list Z) :
  length r = length v -> length t = length v ->
  zip_sub (zip_add r v) (zip_add t v) = zip_sub r t.
Proof.
  revert r t. induction v as [|c v IH]; intros [|a r] [|b t] Hr Ht;
    try discriminate; [reflexivity|].
  injection Hr as Hr. injection Ht as Ht.
  unfold zip_sub, zip_add in *. cbn [combine map fst snd]. f_equal.
  - rewrite (wrap64_sub _ _ (a + c) (b + c)) by apply wrap64_mod.
    f_equal. lia.
  - now apply IH.
Qed.

Lemma zip_add_length (r v : list Z) :
  length r = length v -> length (zip_add r v) = length v.
Proof.
  intros H. unfold zip_add. rewrite length_map, length_combine. lia.
Qed.

Lemma mapM_map_arg {T T' U : Type} (f : T' -> result U) (g : T -> T')
    (l : list T) :
  mapM f (map g l) = mapM (fun x => f (g x)) l.
Proof.
  induction l as [|x l IH]; simpl; [reflexivity|]. now rewrite IH.
Qed.

(** X6. On [int64] arrays, moving every training point and every query
    point by one vector, with the wrapping addition of numpy, leaves the
    computed distances, and so the output, as they were. *)
Theorem knn_predict_translate (A : Argsort) (X : ndarray2) (y : list Z)
    (Q : ndarray2) (k : Z) (v : list Z) :
  wf_array X = true -> wf_array Q = true ->
  ncols Q = ncols X -> length v = ncols X ->
  knn_predict A (translate v X) y (translate v Q) k = knn_predict A X y Q k.
Proof.
  intros HX HQ Hd Hv. unfold knn_predict. simpl rows.
  rewrite mapM_map_arg. apply mapM_ext. intros t Ht.
  assert (Hl : length t = length v)
    by (rewrite (wf_array_row Q t HQ Ht); congruence).
  unfold predict_point.
  replace (distances (translate v X) (zip_add t v)) with (distances X t);
    [reflexivity|].
  unfold distances, sub_broadcast. simpl ncols. simpl rows.
  rewrite (zip_add_length t v Hl), Hv, Nat.eqb_refl.
  replace (Nat.eqb (length t) (ncols X)) with true
    by (symmetry; apply Nat.eqb_eq; congruence).
  simpl. f_equal. rewrite !map_map. apply map_ext_in. intros r Hr.
  do 2 f_equal. symmetry. apply zip_sub_zip_add; [|exact Hl].
  rewrite (wf_array_row X r HX Hr). congruence.
Qed.

Lemma knn_predict_translate_witness :
  knn_predict stable_argsort (translate [10; -3] X_train0) y_train0
    (translate [10; -3] X_test0) 3 =
  knn_predict stable_argsort X_train0 y_train0 X_test0 3.
Proof. apply knn_predict_translate; reflexivity. Defined.

(** ** A query point with one coordinate *)

Lemma zip_sub_repeat (r : list Z) (c : Z) :
  zip_sub r (repeat c (length r)) = map (fun x => wrap64 (x - c)) r.
Proof.
  unfold zip_sub. induction r as [|a r IH]; simpl; [reflexivity|].
  now rewrite IH.
Qed.

Lemma distances_tile (X : ndarray2) (t : list Z) :
  wf_array X = true -> length t = 1%nat ->
  distances X (repeat (hd 0 t) (ncols X)) = distances X t.
Proof.
  intros HX Ht. destruct t as [|c [|c' t]]; try discriminate. simpl hd.
  unfold distances, sub_broadcast. rewrite repeat_length, Nat.eqb_refl.
  simpl length. destruct (Nat.eqb_spec 1 (ncols X)) as [E|E].
  - rewrite <- E. reflexivity.
  - simpl. f_equal. rewrite !map_map. apply map_ext_in. intros r Hr.
    do 2 f_equal. rewrite <- (wf_array_row X r HX Hr). apply zip_sub_repeat.
Qed.

(** X7. Query points of one coordinate are accepted whatever the
    dimensionality [D] of the training points: the call returns what it
    returns when the coordinate is written in each of the [D] places. *)
Theorem knn_predict_scalar_query (A : Argsort) (X : ndarray2) (y : list Z)
    (Q : ndarray2) (k : Z) :
  wf_array X = true -> wf_array Q = true -> ncols Q = 1%nat ->
  knn_predict A X y Q k = knn_predict A X y (tile (ncols X) Q) k.
Proof.
  intros HX HQ Hd. unfold knn_predict. simpl rows.
  rewrite mapM_map_arg. apply mapM_ext. intros t Ht.
  unfold predict_point. rewrite distances_tile; [reflexivity|exact HX|].
  rewrite (wf_array_row Q t HQ Ht). exact Hd.
Qed.

Lemma knn_predict_scalar_query_witness :
  knn_predict stable_argsort X_train0 y_train0 (np_array 1 [[3]; [6]]) 3 =
  knn_predict stable_argsort X_train0 y_train0
    (tile (ncols X_train0) (np_array 1 [[3]; [6]])) 3.
Proof. apply knn_predict_scalar_query; reflexivity. Defined.

(** ** A label held by more than half of the voters *)

Lemma count_two_le (l : list Z) (c p : Z) :
  c <> p -> (count l c + count l p <= length l)%nat.
Proof.
  intros Hne. unfold count. induction l as [|a l IH]; simpl; [lia|].
  destruct (Z.eq_dec a c), (Z.eq_dec a p); subst; try congruence; lia.
Qed.

Lemma first_majority_strict (l : list Z) (c p : Z) :
  first_majority l = Some p -> (length l < 2 * count l c)%nat -> p = c.
Proof.
  intros Hp Hc. apply first_majority_top in Hp. destruct Hp as [_ Htop].
  destruct (Z.eq_dec c p) as [|Hne]; [congruence|].
  specialize (Htop c). pose proof (count_two_le l c p Hne). lia.
Qed.

(** X8. On a valid input, a label held by more than half of the neighbours
    of a query point is the prediction for that point. *)
Theorem knn_predict_strict_majority (A : Argsort) (X : ndarray2) (y : list Z)
    (Q : ndarray2) (k : Z) :
  valid_input X y Q k = true ->
  exists preds, knn_predict A X y Q k = Ok preds /\
    Forall2 (fun q p =>
      exists ds, distances X q = Ok ds /\
        let labels := labels_of y (nearest_neighbors A ds k) in
        forall c, (length labels < 2 * count labels c)%nat -> p = c)
      (rows Q) preds.
Proof.
  intros Hv. destruct (knn_predict_valid A X y Q k Hv) as (preds & E & HF).
  apply valid_input_inv in Hv. destruct Hv as (HX & HQ & Hy & Hn & Hk).
  exists preds. split; [exact E|].
  eapply Forall2_impl; [|exact HF]. clear HF E preds.
  intros q p (Hl & _ & Hf). exists (map (fdist q) (rows X)).
  split; [now apply distances_valid|]. cbn zeta. intros c Hc.
  now apply (first_majority_strict _ c p Hf).
Qed.

Lemma knn_predict_strict_majority_witness :
  exists preds, knn_predict stable_argsort X_train0 y_train0 X_test0 3 = Ok preds /\
    Forall2 (fun q p =>
      exists ds, distances X_train0 q = Ok ds /\
        let labels := labels_of y_train0 (nearest_neighbors stable_argsort ds 3) in
        forall c, (length labels < 2 * count labels c)%nat -> p = c)
      (rows X_test0) preds.
Proof. apply knn_predict_strict_majority. reflexivity. Defined.

(** X9. On a valid input with [k >= N], a label held by more than half of
    the training points is the prediction for every query point. *)
Theorem knn_predict_all_vote (A : Argsort) (X : ndarray2) (y : list Z)
    (Q : ndarray2) (k : Z) (c : Z) :
  valid_input X y Q k = true -> Z.of_nat (nrows X) <= k ->
  (nrows X < 2 * count y c)%nat ->
  knn_predict A X y Q k = Ok (repeat c (nrows Q)).
Proof.
  intros Hv Hk Hc. destruct (knn_predict_valid A X y Q k Hv) as (preds & E & HF).
  apply valid_input_inv in Hv. destruct Hv as (HX & HQ & Hy & Hn & _).
  rewrite E. f_equal. change (nrows Q) with (length (rows Q)).
  rewrite <- (mapM_length _ _ _ E).
  apply Forall_eq_repeat. apply Forall_forall. intros p Hp.
  destruct (Forall2_In_r _ _ _ HF p Hp) as (t & _ & _ & _ & Hf).
  symmetry. apply (first_majority_strict _ c p Hf).
  pose proof (labels_all_perm A X y k t Hy Hk) as HP.
  rewrite (Permutation_length HP). unfold count.
  rewrite (proj1 (Permutation_count_occ Z.eq_dec _ _) HP). fold (count y c).
  lia.
Qed.

Lemma knn_predict_all_vote_witness :
  knn_predict stable_argsort X_train0 y_train0 X_test0 5 =
  Ok (repeat 0 (nrows X_test0)).
Proof.
  apply knn_predict_all_vote; try reflexivity.
  change (5 < 2 * 3)%nat. lia.
Defined.

(** ** Labels of points that are no neighbours *)

(** X10. Training labels are read at the neighbours only: two label
    sequences, one label per training point, that agree on the neighbours of
    every query point give the same output. *)
Theorem knn_predict_local (A : Argsort) (X : ndarray2) (y y' : list Z)
    (Q : ndarray2) (k : Z) :
  length y = nrows X -> length y' = nrows X ->
  (forall t ds i, In t (rows Q) -> distances X t = Ok ds ->
     In i (nearest_neighbors A ds k) -> nth i y 0 = nth i y' 0) ->
  knn_predict A X y Q k = knn_predict A X y' Q k.
Proof.
  intros Hy Hy' Hagree. unfold knn_predict. apply mapM_ext. intros t Ht.
  destruct (distances X t) as [ds|e] eqn:E.
  - rewrite (predict_point_vote A X y k t ds E Hy).
    rewrite (predict_point_vote A X y' k t ds E Hy').
    f_equal. unfold labels_of. apply map_ext_in. intros i Hi.
    now apply (Hagree t ds).
  - unfold predict_point. now rewrite E.
Qed.

Lemma knn_predict_local_witness :
  knn_predict stable_argsort X_train0 [0; 0; 0; 1; 1] (np_array 2 [[1; 2]]) 3 =
  knn_predict stable_argsort X_train0 [0; 0; 0; 7; 9] (np_array 2 [[1; 2]]) 3.
Proof.
  apply knn_predict_local; try reflexivity.
  intros t ds i [<-|[]] E Hi. vm_compute in E. injection E as <-.
  vm_compute in Hi. destruct Hi as [<-|[<-|[<-|[]]]]; reflexivity.
Defined.

(** ** Predicting the training points *)

Lemma sq_dist_self (q : list Z) : sq_dist q q = 0.
Proof.
  induction q as [|a q IH]; [reflexivity|].
  rewrite sq_dist_cons, IH, Z.sub_diag. reflexivity.
Qed.

Lemma sq_dist_zero (q x : list Z) :
  length x = length q -> sq_dist q x = 0 -> x = q.
Proof.
  revert x. induction q as [|a q IH]; intros [|b x] Hl H; try discriminate.
  - reflexivity.
  - injection Hl as Hl. rewrite sq_dist_cons in H.
    pose proof (sq_dist_nonneg q x) as Hnn.
    rewrite Z.pow_2_r in H.
    assert (Hab : a = b) by nia. subst b. f_equal. apply IH; [exact Hl|nia].
Qed.

Lemma Forall2_nth_both {T U : Type} (R : T -> U -> Prop) (l : list T)
    (ys : list U) (d : T) (d' : U) :
  Forall2 R l ys -> forall n, (n < length l)%nat -> R (nth n l d) (nth n ys d').
Proof.
  induction 1 as [|x y l ys HR _ IH]; intros n Hn; simpl in Hn; [lia|].
  destruct n as [|n]; simpl; [exact HR|]. apply IH. lia.
Qed.

Lemma fdist_self (q : list Z) : fdist q q = 0.
Proof. unfold fdist. now rewrite sq_dist_self. Qed.

Lemma no_overflow_rows (X : ndarray2) (i j : nat) :
  no_overflow X = true -> (i < nrows X)%nat -> (j < nrows X)%nat ->
  sq_dist (row X i) (row X j) < 2 ^ 63.
Proof.
  unfold no_overflow. rewrite forallb_forall. intros H Hi Hj.
  specialize (H (row X i) (nth_In _ _ Hi)). rewrite forallb_forall in H.
  apply Z.ltb_lt, H. now apply nth_In.
Qed.

(** With [k = 1] the neighbour of a training point that no other training
    point equals is the point itself, when no squared distance between
    training points wraps. *)
Lemma neighbors_of_training_point (A : Argsort) (X : ndarray2) (n : nat) :
  wf_array X = true -> NoDup (rows X) -> no_overflow X = true ->
  (n < nrows X)%nat ->
  neighbors A X 1 (row X n) = [n].
Proof.
  intros HX Hnd Hno Hn.
  pose proof (neighbors_length A X 1 (row X n)) as Hlen.
  assert (Hone : slice_len (nrows X) 1 = 1%nat)
    by (unfold slice_len; change (0 <=? 1) with true; cbv iota;
        change (Z.to_nat 1) with 1%nat; lia).
  rewrite Hone in Hlen.
  destruct (neighbors A X 1 (row X n)) as [|h [|h' l]] eqn:EN; try discriminate.
  f_equal. destruct (Nat.eq_dec h n) as [|Hne]; [assumption|exfalso].
  assert (Hh : In h (neighbors A X 1 (row X n))) by (rewrite EN; now left).
  pose proof (neighbors_lt _ _ _ _ _ Hh) as Hhlt.
  assert (Hle : key_at (map (fdist (row X n)) (rows X)) h <=
                key_at (map (fdist (row X n)) (rows X)) n).
  { apply nearest_le_rest with (A := A) (k := 1).
    - exact Hh.
    - now rewrite length_map.
    - fold (neighbors A X 1 (row X n)). rewrite EN. intros [->|[]]. congruence. }
  rewrite !key_at_fdist, fdist_self in Hle by assumption.
  pose proof (sq_dist_nonneg (row X n) (row X h)) as Hnn.
  pose proof (no_overflow_rows X n h Hno Hn Hhlt) as H63.
  assert (Hrow : row X h = row X n).
  { apply sq_dist_zero.
    - unfold row. rewrite !(wf_array_row X _ HX); auto; apply nth_In; assumption.
    - destruct (Z.eq_dec (sq_dist (row X n) (row X h)) 0) as [|Hnz];
        [assumption|exfalso].
      assert (Hpos : 0 < fdist (row X n) (row X h))
        by (apply np_sqrt_pos; lia).
      lia. }
  apply Hne. unfold row in Hrow.
  now apply (proj1 (NoDup_nth (rows X) []) Hnd).
Qed.

(** X11. With [k = 1] and [int64] training points that are pairwise
    different and whose pairwise squared distances are below [2^63], so that
    none wraps, predicting the training points gives back the training
    labels. *)
Theorem knn_predict_recall (A : Argsort) (X : ndarray2) (y : list Z) :
  wf_array X = true -> NoDup (rows X) -> no_overflow X = true ->
  length y = nrows X ->
  knn_predict A X y X 1 = Ok y.
Proof.
  intros HX Hnd Hno Hy. destruct (rows X) as [|r0 rs] eqn:Erows.
  - unfold knn_predict. rewrite Erows. unfold nrows in Hy. rewrite Erows in Hy.
    destruct y; [reflexivity|discriminate].
  - assert (Hv : valid_input X y X 1 = true).
    { unfold valid_input. rewrite HX, Nat.eqb_refl.
      rewrite (proj2 (Nat.eqb_eq _ _) Hy). unfold nrows. rewrite Erows.
      reflexivity. }
    destruct (knn_predict_valid A X y X 1 Hv) as (preds & E & HF).
    rewrite E. f_equal. rewrite <- Erows in *. clear Erows r0 rs.
    pose proof (mapM_length _ _ _ E) as Hlen.
    apply nth_ext with (d := 0) (d' := 0); [unfold nrows in Hy; congruence|].
    intros n Hn. rewrite Hlen in Hn.
    pose proof (Forall2_nth_both _ _ _ [] 0 HF n Hn) as (_ & _ & Hf).
    fold (row X n) in Hf.
    rewrite (neighbors_of_training_point A X n HX Hnd Hno Hn) in Hf.
    apply first_majority_top in Hf. destruct Hf as [[<-|[]] _]. reflexivity.
Qed.

Lemma knn_predict_recall_witness :
  knn_predict stable_argsort X_train0 y_train0 X_train0 1 = Ok y_train0.
Proof.
  apply knn_predict_recall; try reflexivity.
  repeat (constructor; [simpl; intuition discriminate|]). constructor.
Defined.

(** ** Which sort is used *)

(** X12. When no two training points are at the same distance from a
    query point, the output is the same whichever sort within the contract of
    [np.argsort] is used. *)
Theorem knn_predict_any_sort (A B : Argsort) (X : ndarray2) (y : list Z)
    (Q : ndarray2) (k : Z) :
  (forall t ds, In t (rows Q) -> distances X t = Ok ds -> NoDup ds) ->
  knn_predict A X y Q k = knn_predict B X y Q k.
Proof.
  intros Hnd. unfold knn_predict. apply mapM_ext. intros t Ht.
  unfold predict_point. destruct (distances X t) as [ds|e] eqn:E; [|reflexivity].
  simpl. unfold nearest_neighbors.
  assert (Hkeys : map (key_at ds) (argsort A ds) = map (key_at ds) (argsort B ds)).
  { apply sorted_perm_unique; try apply argsort_strongly.
    apply Permutation_map.
    apply perm_trans with (seq 0 (length ds)); [apply argsort_perm|].
    apply Permutation_sym, argsort_perm. }
  apply (map_inj_on (key_at ds)) in Hkeys; [now rewrite Hkeys|].
  intros i j Hi Hj. apply argsort_In in Hi, Hj. unfold key_at.
  now apply (proj1 (NoDup_nth ds 0) (Hnd t ds Ht E)).
Qed.

Lemma knn_predict_any_sort_witness :
  knn_predict stable_argsort X_train0 y_train0 X_test0 2 =
  knn_predict antistable_argsort X_train0 y_train0 X_test0 2.
Proof.
  apply knn_predict_any_sort.
  intros t ds [<-|[<-|[]]] E; vm_compute in E; injection E as <-; nodup_Z.
Defined.
